(** * js-hooks: the [Hooks] registry of actions and filters

    A shallow embedding of the class [Hooks] of [hooks.js] and the
    properties of its eight public methods.

    Conventions of the embedding.
    - A callback is a JavaScript function reference; [!==] on references
      is identity, so a callback is represented by an identifier and what
      it does when called by [behaviour], a parameter of the development.
    - [this.actions] and [this.filters] are object literals [{}] used as
      maps from a tag to an array of [{priority, callback}] objects.  A
      property read [o[tag]] on such an object looks first among the
      object's own properties and then along its prototype chain, which
      for [{}] is [Object.prototype]: see [Get].
    - Arrays are mutable and shared: [push] and [sort] change the array
      they are called on, [filter] and [map] build a new one.  An array is
      referred to by the place it is stored in ([Ref]), so a mutation
      through one name is seen through every other name of that place.
    - A method runs in the monad [M]: a state (the registry and the rest
      of the program's world), a completion (normal, thrown or never
      returning) and the list of callback calls the method itself made.
    - Priorities are integers, as the documentation has them.

    The file has three parts: the embedding of the class; the notions the
    properties are stated with, among them programs that use the registry
    ([Prog]) and the history of what they registered; the properties. *)

From Stdlib Require Import ZArith Lia.
From stdpp Require Import gmap strings list fin_maps sorting.

Open Scope string_scope.
Open Scope list_scope.
Open Scope Z_scope.

(** ** Entries *)

(** A callback reference; two references are [===] when they are the same
    identifier. *)
Definition Callback := nat.

(** The object [{ priority, callback }] pushed by [addAction] and
    [addFilter]. *)
Record Hook := { priority : Z; callback : Callback }.

#[global] Instance Hook_eq_dec : EqDecision Hook.
Proof. solve_decision. Defined.

(** ** [Array.prototype.sort]

    ECMAScript (2019 and later) requires [sort] to be stable, and with a
    consistent comparator such as [(a, b) => a.priority - b.priority] on
    integers the result is fully determined: it is the one arrangement of
    the elements that is ordered by the comparator and keeps elements that
    compare equal in their original order ([stable_sort_unique] below).
    Insertion from the right computes it. *)

Fixpoint insert_by {A} (comparefn : A -> A -> Z) (x : A) (sorted : list A) : list A :=
  match sorted with
  | [] => [x]
  | y :: ys =>
      if (comparefn x y <=? 0)%Z then x :: y :: ys
      else y :: insert_by comparefn x ys
  end.

Fixpoint sort_by {A} (comparefn : A -> A -> Z) (l : list A) : list A :=
  match l with
  | [] => []
  | x :: xs => insert_by comparefn x (sort_by comparefn xs)
  end.

(** The comparator of [_getSortedCallbacks]: [(a, b) => a.priority - b.priority]. *)
Definition by_priority (a b : Hook) : Z := priority a - priority b.

(** ** JavaScript values found under a tag *)

Inductive JsValue :=
| JsUndefined
| JsArray (elems : list Hook)   (* an array of hooks *)
| JsBuiltin (len : Z)           (* a built-in function, with its [length] *)
| JsObject.                     (* [Object.prototype] itself *)

#[global] Instance JsValue_eq_dec : EqDecision JsValue.
Proof. solve_decision. Defined.

(** [ToBoolean]: [undefined] is falsy; arrays (empty ones too), functions
    and objects are truthy. *)
Definition truthy (v : JsValue) : bool :=
  match v with JsUndefined => false | _ => true end.

(** [a || b] *)
Definition or_else (a b : JsValue) : JsValue := if truthy a then a else b.

(** The properties every object literal inherits from [Object.prototype]
    (ECMAScript 20.1.3, with the legacy accessors of Annex B), each
    function with its [length]; [__proto__] reads as the prototype
    itself. *)
Definition Object_prototype : gmap string JsValue :=
  list_to_map
    [ ("constructor", JsBuiltin 1);
      ("hasOwnProperty", JsBuiltin 1);
      ("isPrototypeOf", JsBuiltin 1);
      ("propertyIsEnumerable", JsBuiltin 1);
      ("toLocaleString", JsBuiltin 0);
      ("toString", JsBuiltin 0);
      ("valueOf", JsBuiltin 0);
      ("__defineGetter__", JsBuiltin 2);
      ("__defineSetter__", JsBuiltin 2);
      ("__lookupGetter__", JsBuiltin 1);
      ("__lookupSetter__", JsBuiltin 1);
      ("__proto__", JsObject) ].

(** The own properties of [this.actions] or [this.filters]. *)
Abbreviation Table := (gmap string JsValue).

(** [o[key]]: an own property, else the inherited one, else [undefined]. *)
Definition Get (o : Table) (key : string) : JsValue :=
  match o !! key with
  | Some v => v
  | None => default JsUndefined (Object_prototype !! key)
  end.

(** [o[key] = v]: creates or overwrites an own property.  The one
    inherited property that is an accessor is [__proto__]: with no own
    property of that name the assignment runs its setter instead, and the
    only value the methods below ever assign there is the one they have
    just read, [Object.prototype], which leaves the object as it is. *)
Definition Set_ (o : Table) (key : string) (v : JsValue) : Table :=
  match o !! key with
  | None => if String.eqb key "__proto__" then o else <[key := v]> o
  | Some _ => <[key := v]> o
  end.

(** A tag that names no inherited property: on such a tag [this.actions]
    behaves as a plain map. *)
Definition ordinary (tag : string) : Prop := Object_prototype !! tag = None.

#[global] Instance ordinary_dec tag : Decision (ordinary tag).
Proof. unfold ordinary. apply _. Defined.

(** ** The registry *)

(** [constructor() { this.actions = {}; this.filters = {}; }] *)
Record Hooks := { actions : Table; filters : Table }.

Definition new_Hooks : Hooks := {| actions := ∅; filters := ∅ |}.

(** Which of the two objects a place belongs to. *)
Inductive Store := Actions | Filters.

#[global] Instance Store_eq_dec : EqDecision Store.
Proof. solve_decision. Defined.

(** The place [this.actions[tag]] or [this.filters[tag]]; an array is
    known by the place that holds it. *)
Definition Ref : Type := Store * string.

Definition table (st : Store) (h : Hooks) : Table :=
  match st with Actions => actions h | Filters => filters h end.

Definition with_table (st : Store) (t : Table) (h : Hooks) : Hooks :=
  match st with
  | Actions => {| actions := t; filters := filters h |}
  | Filters => {| actions := actions h; filters := t |}
  end.

Section Registry.

(** [Value]: the values passed to and returned by callbacks ([options],
    the filtered [value], a thrown value); [World]: everything else the
    callbacks can reach (their captured variables). *)
Context {Value World : Type}.

Record State := { hooks : Hooks; world : World }.

(** What can be thrown: the [TypeError] the engine raises when a method
    is missing, or whatever a callback throws. *)
Inductive Exn :=
| TypeError (msg : string)
| Raised (v : Value).

Inductive Completion (A : Type) :=
| Normal (a : A) (s : State)
| Throw (e : Exn) (s : State)
| Diverge.
#[global] Arguments Normal {A} a s.
#[global] Arguments Throw {A} e s.
#[global] Arguments Diverge {A}.

(** A call made by the registry: the callback and its arguments. *)
Definition Call : Type := Callback * list Value.

Record Run (A : Type) := { calls : list Call; completion : Completion A }.
#[global] Arguments calls {A} r.
#[global] Arguments completion {A} r.

Definition M (A : Type) : Type := State -> Run A.

Definition ret {A} (a : A) : M A :=
  fun s => {| calls := []; completion := Normal a s |}.

Definition bind {A B} (m : M A) (k : A -> M B) : M B :=
  fun s =>
    let r := m s in
    match completion r with
    | Normal a s' =>
        let r' := k a s' in
        {| calls := calls r ++ calls r'; completion := completion r' |}
    | Throw e s' => {| calls := calls r; completion := Throw e s' |}
    | Diverge => {| calls := calls r; completion := Diverge |}
    end.

Definition throw {A} (e : Exn) : M A :=
  fun s => {| calls := []; completion := Throw e s |}.

Notation "x <- m ;; k" := (bind m (fun x => k))
  (at level 100, m at next level, right associativity).
Notation "m ;;; k" := (bind m (fun _ => k))
  (at level 100, right associativity).

(** What a callback does when it is called: any function of the state,
    so a callback may register, unregister or dispatch in turn, change
    its own variables, throw, or never return. *)
Variable behaviour : Callback -> list Value -> State -> Completion Value.

(** [callback(args)] *)
Definition call (cb : Callback) (args : list Value) : M Value :=
  fun s => {| calls := [(cb, args)]; completion := behaviour cb args s |}.

(** *** Property access on [this] *)

Definition read (st : Store) (key : string) : M JsValue :=
  fun s => ret (Get (table st (hooks s)) key) s.

Definition assign (st : Store) (key : string) (v : JsValue) : M unit :=
  fun s =>
    ret tt {| hooks := with_table st (Set_ (table st (hooks s)) key v) (hooks s);
              world := world s |}.

Definition not_a_function {A} (method : string) : M A :=
  throw (TypeError (String.append method " is not a function")).

(** *** Array methods, on the array held at a place *)

(** [arr.push(x)]: appends in place. *)
Definition Array_push (arr : Ref) (x : Hook) : M unit :=
  v <- read arr.1 arr.2 ;;
  match v with
  | JsArray l => assign arr.1 arr.2 (JsArray (l ++ [x]))
  | _ => not_a_function "push"
  end.

(** [arr.filter(p)]: a new array, the receiver is left as it is. *)
Definition Array_filter (arr : Ref) (p : Hook -> bool) : M (list Hook) :=
  v <- read arr.1 arr.2 ;;
  match v with
  | JsArray l => ret (List.filter p l)
  | _ => not_a_function "filter"
  end.

(** [arr.sort(comparefn)]: sorts in place and returns the receiver. *)
Definition Array_sort (arr : Ref) (comparefn : Hook -> Hook -> Z) : M Ref :=
  v <- read arr.1 arr.2 ;;
  match v with
  | JsArray l => assign arr.1 arr.2 (JsArray (sort_by comparefn l)) ;;; ret arr
  | _ => not_a_function "sort"
  end.

(** [arr.map(f)]: a new array. *)
Definition Array_map {B} (arr : Ref) (f : Hook -> B) : M (list B) :=
  v <- read arr.1 arr.2 ;;
  match v with
  | JsArray l => ret (List.map f l)
  | _ => not_a_function "map"
  end.

(** [arr.forEach(callbackfn)] on an array no one else holds.  [locals]
    are the variables of the enclosing function that [callbackfn]
    assigns ([value] in [applyFilters]). *)
Fixpoint forEach {A L} (arr : list A) (callbackfn : A -> L -> M L) (locals : L) : M L :=
  match arr with
  | [] => ret locals
  | x :: rest => locals' <- callbackfn x locals ;; forEach rest callbackfn locals'
  end.

(** *** The methods of [Hooks] *)

(** [addAction(tag, callback, priority = 10)] *)
Definition addAction (tag : string) (callback : Callback) (priority : option Z) : M unit :=
  let priority := default 10 priority in
  a <- read Actions tag ;;
  assign Actions tag (or_else a (JsArray [])) ;;;
  Array_push (Actions, tag) {| priority := priority; callback := callback |}.

(** [addFilter(tag, callback, priority = 10)] *)
Definition addFilter (tag : string) (callback : Callback) (priority : option Z) : M unit :=
  let priority := default 10 priority in
  f <- read Filters tag ;;
  assign Filters tag (or_else f (JsArray [])) ;;;
  Array_push (Filters, tag) {| priority := priority; callback := callback |}.

(** [removeAction(tag, callback)] *)
Definition removeAction (tag : string) (cb : Callback) : M unit :=
  a <- read Actions tag ;;
  if negb (truthy a) then ret tt
  else
    kept <- Array_filter (Actions, tag) (fun action => negb (bool_decide (callback action = cb))) ;;
    assign Actions tag (JsArray kept).

(** [removeFilter(tag, callback)] *)
Definition removeFilter (tag : string) (cb : Callback) : M unit :=
  f <- read Filters tag ;;
  if negb (truthy f) then ret tt
  else
    kept <- Array_filter (Filters, tag) (fun filter => negb (bool_decide (callback filter = cb))) ;;
    assign Filters tag (JsArray kept).

(** [_getSortedCallbacks(hooks)]: [hooks] is the stored array itself. *)
Definition _getSortedCallbacks (hooks : Ref) : M (list Callback) :=
  sorted <- Array_sort hooks by_priority ;;
  Array_map sorted callback.

(** [doAction(tag, options)] *)
Definition doAction (tag : string) (options : Value) : M unit :=
  a <- read Actions tag ;;
  if negb (truthy a) then ret tt
  else
    actions <- _getSortedCallbacks (Actions, tag) ;;
    forEach actions (fun callback _ => call callback [options] ;;; ret tt) tt.

(** [applyFilters(tag, value, options)] *)
Definition applyFilters (tag : string) (value options : Value) : M Value :=
  f <- read Filters tag ;;
  if negb (truthy f) then ret value
  else
    filters <- _getSortedCallbacks (Filters, tag) ;;
    value <- forEach filters (fun callback value => call callback [value; options]) value ;;
    ret value.

(** [x.length > 0], for the values a tag can hold; the [length] of
    [Object.prototype] is [undefined], and [undefined > 0] is false. *)
Definition length_gt_0 (v : JsValue) : bool :=
  match v with
  | JsArray l => bool_decide (0 < Z.of_nat (List.length l))
  | JsBuiltin n => bool_decide (0 < n)
  | JsObject | JsUndefined => false
  end.

(** [hasAction(tag)] *)
Definition hasAction (tag : string) : M bool :=
  a <- read Actions tag ;;
  if truthy a then a <- read Actions tag ;; ret (length_gt_0 a) else ret false.

(** [hasFilter(tag)] *)
Definition hasFilter (tag : string) : M bool :=
  f <- read Filters tag ;;
  if truthy f then f <- read Filters tag ;; ret (length_gt_0 f) else ret false.

End Registry.

(** * Notions used to state the properties *)

(** ** Orders on entries *)

(** The entry [h] has priority [p]. *)
Definition same_priority (p : Z) (h : Hook) : bool := bool_decide (priority h = p).

(** [a] does not come after [b] in priority. *)
Definition priority_le (a b : Hook) : Prop := priority a <= priority b.

(** [order] is the stable sort of [l] by ascending priority: the same
    entries, in non-decreasing priority, entries of one priority in the
    order they have in [l]. *)
Definition stable_by_priority (order l : list Hook) : Prop :=
  order ≡ₚ l ∧
  StronglySorted priority_le order ∧
  ∀ p, List.filter (same_priority p) order = List.filter (same_priority p) l.

(** Two arrangements in which the entries of every priority come in the
    same order. *)
Definition same_order (l1 l2 : list Hook) : Prop :=
  ∀ p, List.filter (same_priority p) l1 = List.filter (same_priority p) l2.

(** ** States and runs *)

Section Notions.

Context {Value World : Type}.
Variable behaviour : Callback -> list Value -> @State World -> @Completion Value World Value.

Abbreviation State := (@State World).
Abbreviation M := (@M Value World).
Abbreviation Run := (@Run Value World).

(** What is read under [tag] in one of the two objects. *)
Definition slot (st : Store) (tag : string) (s : State) : JsValue :=
  Get (table st (hooks s)) tag.

(** The state with the own property [tag] of one object set to [v]. *)
Definition put (st : Store) (tag : string) (v : JsValue) (s : State) : State :=
  {| hooks := with_table st (<[tag := v]> (table st (hooks s))) (hooks s);
     world := world s |}.

(** The run that returns [a] in state [s], no callback called. *)
Definition done_ {A} (a : A) (s : State) : Run A :=
  {| calls := []; completion := Normal a s |}.

(** The run that throws a [TypeError] in state [s], no callback called. *)
Definition failed {A} (msg : string) (s : State) : Run A :=
  {| calls := []; completion := Throw (TypeError msg) s |}.

(** The two families of methods differ only in the object they use. *)
Definition register (st : Store) (tag : string) (cb : Callback) (p : option Z) : M unit :=
  match st with Actions => addAction tag cb p | Filters => addFilter tag cb p end.

Definition unregister (st : Store) (tag : string) (cb : Callback) : M unit :=
  match st with Actions => removeAction tag cb | Filters => removeFilter tag cb end.

Definition has (st : Store) (tag : string) : M bool :=
  match st with Actions => hasAction tag | Filters => hasFilter tag end.

(** The entry pushed for [(tag, cb, p)]: the priority is 10 when [p] is
    omitted. *)
Definition entry (cb : Callback) (p : option Z) : Hook :=
  {| priority := default 10 p; callback := cb |}.

(** [l.filter(h => h.callback !== cb)] *)
Definition without (cb : Callback) (l : list Hook) : list Hook :=
  List.filter (fun h => negb (bool_decide (callback h = cb))) l.

(** The callbacks of [cbs] called one after the other with [options],
    each in the state the previous one left, until one does not return. *)
Fixpoint run_actions (options : Value) (cbs : list Callback) (s : State) : Run unit :=
  match cbs with
  | [] => done_ tt s
  | cb :: rest =>
      match behaviour cb [options] s with
      | Normal _ s' =>
          let r := run_actions options rest s' in
          {| calls := (cb, [options]) :: calls r; completion := completion r |}
      | Throw e s' => {| calls := [(cb, [options])]; completion := Throw e s' |}
      | Diverge => {| calls := [(cb, [options])]; completion := Diverge |}
      end
  end.

(** The left-to-right fold of the callbacks of [cbs] over [value]: each
    is called with the value the previous one returned, in the state the
    previous one left, until one does not return. *)
Fixpoint fold_filters (options : Value) (cbs : list Callback) (value : Value) (s : State)
  : Run Value :=
  match cbs with
  | [] => done_ value s
  | cb :: rest =>
      match behaviour cb [value; options] s with
      | Normal value' s' =>
          let r := fold_filters options rest value' s' in
          {| calls := (cb, [value; options]) :: calls r; completion := completion r |}
      | Throw e s' => {| calls := [(cb, [value; options])]; completion := Throw e s' |}
      | Diverge => {| calls := [(cb, [value; options])]; completion := Diverge |}
      end
  end.

(** The state a completion ends in, when there is one. *)
Definition final {A} (c : @Completion Value World A) : option State :=
  match c with Normal _ s | Throw _ s => Some s | Diverge => None end.

(** Callbacks that leave the registry as they found it. *)
Definition leaves_registry : Prop :=
  ∀ cb args s s', final (behaviour cb args s) = Some s' → hooks s' = hooks s.

(** A callback that returns [v] after doing what [c] does. *)
Definition returning (v : Value) (c : @Completion Value World unit) : @Completion Value World Value :=
  match c with
  | Normal _ s => Normal v s
  | Throw e s => Throw e s
  | Diverge => Diverge
  end.

(** The tag reads as nothing or as an array of entries. *)
Definition plain (st : Store) (tag : string) (s : State) : Prop :=
  slot st tag s = JsUndefined ∨ ∃ l, slot st tag s = JsArray l.

(** The sequence of entries of a tag; none when the tag holds no array. *)
Definition entries (st : Store) (tag : string) (s : State) : list Hook :=
  match slot st tag s with JsArray l => l | _ => [] end.

(** The state with the array stored under the tag, if there is one,
    rearranged as [order]: what the in-place sort of a dispatch leaves. *)
Definition with_sorted (st : Store) (tag : string) (order : list Hook) (s : State) : State :=
  match slot st tag s with
  | JsArray _ => put st tag (JsArray order) s
  | _ => s
  end.

End Notions.

(** * Programs that use the registry

    The code around the registry, and the bodies of the callbacks
    themselves, reach it through its eight methods.  [Prog] is such a
    piece of code: a tree of method calls, each continuing with the value
    the call returned, with the variables [Vars] it keeps between calls.
    Running a program also keeps, beside the registry, the list of the
    registrations and removals that have taken effect: it is from this
    history, not from the arrays, that the order of registration is
    read. *)

Inductive Event :=
| Registered (st : Store) (tag : string) (h : Hook)
| Removed (st : Store) (tag : string) (cb : Callback).

(** The history, latest event first. *)
Abbreviation History := (list Event).

(** The variables of the program, and the history. *)
Abbreviation World Vars := (Vars * History)%type.

Section Programs.

Context {Value Vars : Type}.

Abbreviation State := (@State (World Vars)).
Abbreviation M := (@M Value (World Vars)).
Abbreviation Exn := (@Exn Value).

(** The entries registered under a tag and not removed since, in the
    order they were registered. *)
Fixpoint registered (log : History) (st : Store) (tag : string) : list Hook :=
  match log with
  | [] => []
  | Registered st' tag' h :: earlier =>
      if decide (st' = st ∧ tag' = tag) then registered earlier st tag ++ [h]
      else registered earlier st tag
  | Removed st' tag' cb :: earlier =>
      if decide (st' = st ∧ tag' = tag) then without cb (registered earlier st tag)
      else registered earlier st tag
  end.

(** Entering an event in the history. *)
Definition record (ev : Event) : M unit :=
  fun s => done_ tt {| hooks := hooks s; world := ((world s).1, ev :: (world s).2) |}.

(** A registration, entered in the history once it has taken effect. *)
Definition registering (st : Store) (tag : string) (cb : Callback) (p : option Z) : M unit :=
  bind (register st tag cb p) (fun _ => record (Registered st tag (entry cb p))).

(** A removal, entered in the history once it has taken effect. *)
Definition unregistering (st : Store) (tag : string) (cb : Callback) : M unit :=
  bind (unregister st tag cb) (fun _ => record (Removed st tag cb)).

Inductive Prog :=
| Return (v : Value)
| Raise (v : Value)
| Register (st : Store) (tag : string) (cb : Callback) (p : option Z) (k : Prog)
| Unregister (st : Store) (tag : string) (cb : Callback) (k : Prog)
| DoAction (tag : string) (options : Value) (k : Prog)
| ApplyFilters (tag : string) (value options : Value) (k : Value -> Prog)
| Has (st : Store) (tag : string) (k : bool -> Prog)
| ReadVars (k : Vars -> Prog)
| WriteVars (vars : Vars) (k : Prog)
| Try (body : Prog) (handler : Exn -> Prog) (k : Value -> Prog).

(** Running a program, the callbacks behaving as [b]. *)
Fixpoint exec (b : Callback -> list Value -> State -> Completion Value) (p : Prog) : M Value :=
  match p with
  | Return v => ret v
  | Raise v => throw (Raised v)
  | Register st tag cb pr k =>
      bind (registering st tag cb pr) (fun _ => exec b k)
  | Unregister st tag cb k =>
      bind (unregistering st tag cb) (fun _ => exec b k)
  | DoAction tag options k =>
      bind (doAction b tag options) (fun _ => exec b k)
  | ApplyFilters tag value options k =>
      bind (applyFilters b tag value options) (fun v => exec b (k v))
  | Has st tag k =>
      bind (has st tag) (fun r => exec b (k r))
  | ReadVars k =>
      fun s => exec b (k (world s).1) s
  | WriteVars vars k =>
      fun s => exec b k {| hooks := hooks s; world := (vars, (world s).2) |}
  | Try body handler k =>
      fun s =>
        let r := exec b body s in
        match completion r with
        | Normal v s' =>
            let r' := exec b (k v) s' in
            {| calls := calls r ++ calls r'; completion := completion r' |}
        | Throw e s' =>
            let r' := bind (exec b (handler e)) (fun v => exec b (k v)) s' in
            {| calls := calls r ++ calls r'; completion := completion r' |}
        | Diverge => {| calls := calls r; completion := Diverge |}
        end
  end.

(** The callbacks are programs too: [code cb args] is the body of [cb]
    applied to [args].  A callback may dispatch, and so call itself
    without end; [depth] bounds how deep calls may nest, and a call that
    would go deeper does not return. *)
Fixpoint behaviourN (code : Callback -> list Value -> Prog) (depth : nat)
  : Callback -> list Value -> State -> Completion Value :=
  match depth with
  | O => fun _ _ _ => Diverge
  | S depth' => fun cb args s => completion (exec (behaviourN code depth') (code cb args) s)
  end.

(** A fresh registry, nothing registered yet. *)
Definition initial (vars : Vars) : State :=
  {| hooks := new_Hooks; world := (vars, []) |}.

End Programs.

(** ** The arrays and the history *)

Section History.

Context {Value Vars : Type}.

Abbreviation State := (@State (World Vars)).
Abbreviation Completion := (@Completion Value (World Vars)).
Abbreviation M := (@M Value (World Vars)).

(** Every array holds the entries the history says are registered, the
    entries of each priority in their order of registration; where there
    is no array nothing is registered, and what is read there is
    [undefined] unless the tag names an inherited property. *)
Definition consistent (s : State) : Prop :=
  ∀ st tag,
    match slot st tag s with
    | JsArray l => same_order l (registered (world s).2 st tag)
    | v => registered (world s).2 st tag = [] ∧ (ordinary tag → v = JsUndefined)
    end.

(** [P] holds of the state a completion ends in. *)
Definition after {A} (P : State -> Prop) (c : Completion A) : Prop :=
  ∀ s', final c = Some s' → P s'.

End History.

(** ** States and callbacks of the worked examples *)

(** The state a run ends in ([s0] if it does not end). *)
Definition state_after {Value World A} (r : @Run Value World A) (s0 : @State World) : @State World :=
  match completion r with
  | Normal _ s | Throw _ s => s
  | Diverge => s0
  end.

(** [addAction(...)] and [addFilter(...)] as steps from one state to the next. *)
Definition then_addAction {World} tag cb p (s : @State World) : @State World :=
  state_after (addAction (Value := Z) tag cb p s) s.

Definition then_addFilter {World} tag cb p (s : @State World) : @State World :=
  state_after (addFilter (Value := Z) tag cb p s) s.

Definition then_removeAction {World} tag cb (s : @State World) : @State World :=
  state_after (removeAction (Value := Z) tag cb s) s.

Definition then_removeFilter {World} tag cb (s : @State World) : @State World :=
  state_after (removeFilter (Value := Z) tag cb s) s.

(** [new Hooks()], with no variables around it. *)
Definition fresh : @State unit := {| hooks := new_Hooks; world := tt |}.

(** Callbacks that return [0] and touch nothing. *)
Definition quiet : Callback -> list Z -> @State unit -> @Completion Z unit Z :=
  fun _ _ s => Normal 0 s.

(** [addAction('x', f, 20); addAction('x', g, 5)], with [f = 1] and [g = 2]. *)
Definition f_then_g : @State unit :=
  then_addAction "x" 2%nat (Some 5) (then_addAction "x" 1%nat (Some 20) fresh).

(** Filters [F1 = 1], doubling, and [F2 = 2], adding one. *)
Definition double_and_inc : Callback -> list Z -> @State unit -> @Completion Z unit Z :=
  fun cb args s =>
    match cb, args with
    | 1%nat, v :: _ => Normal (v * 2) s
    | 2%nat, v :: _ => Normal (v + 1) s
    | _, _ => Normal 0 s
    end.

(** [addFilter('c', F2, 10); addFilter('c', F1, 5)] *)
Definition F2_then_F1 : @State unit :=
  then_addFilter "c" 1%nat (Some 5) (then_addFilter "c" 2%nat None fresh).

(** [f = 1] registers [g = 2] under ['x'] each time it is called. *)
Definition f_registers_g : Callback -> list Z -> @State unit -> @Completion Z unit Z :=
  fun cb args s =>
    match cb with
    | 1%nat => returning 0 (completion (addAction "x" 2%nat None s))
    | _ => Normal 0 s
    end.

(** [addAction('x', f)] *)
Definition only_f : @State unit := then_addAction "x" 1%nat None fresh.

(** [c2 = 2] throws [99]; the others return. *)
Definition second_throws : Callback -> list Z -> @State unit -> @Completion Z unit Z :=
  fun cb args s =>
    match cb with
    | 2%nat => Throw (Raised 99) s
    | _ => Normal 0 s
    end.

(** [addAction('x', c3, 30); addAction('x', c2, 20); addAction('x', c1, 10)] *)
Definition three_actions : @State unit :=
  then_addAction "x" 1%nat (Some 10)
    (then_addAction "x" 2%nat (Some 20) (then_addAction "x" 3%nat (Some 30) fresh)).

(** The body of [f = 1] registers [h = 3] under ['x'] at priority 5; the
    other callbacks just return. *)
Definition f_adds_h : Callback -> list Z -> @Prog Z unit :=
  fun cb _ =>
    match cb with
    | 1%nat => Register Actions "x" 3%nat (Some 5) (Return 0)
    | _ => Return 0
    end.

(** [addAction('x', f, 20); addAction('x', g, 5); doAction('x')] *)
Definition register_and_dispatch : @Prog Z unit :=
  Register Actions "x" 1%nat (Some 20)
    (Register Actions "x" 2%nat (Some 5)
       (DoAction "x" 0 (Return 0))).

(** [this.actions['toString'] = []] on a fresh registry: the tag present
    with an empty sequence. *)
Definition toString_empty : @State unit :=
  put Actions "toString" (JsArray []) fresh.

(** For the tests of the repository: [new Hooks()] beside the variable
    [actionCalled], initially [false]; an action that sets it; a filter
    that appends [" world"]. *)
Definition not_called : @State bool := {| hooks := new_Hooks; world := false |}.

Definition sets_actionCalled : Callback -> list Z -> @State bool -> @Completion Z bool Z :=
  fun _ _ s => Normal 0 {| hooks := hooks s; world := true |}.

Definition appends_world
  : Callback -> list string -> @State unit -> @Completion string unit string :=
  fun _ args s =>
    match args with
    | value :: _ => Normal (String.append value " world") s
    | [] => Normal "" s
    end.

(** Filters that are functions of the value and the options: the
    callback [cb] returns [f cb value options] and touches nothing. *)
Definition pure_filters {Value World}
    (behaviour : Callback -> list Value -> @State World -> @Completion Value World Value)
    (f : Callback -> Value -> Value -> Value) : Prop :=
  ∀ cb value options s, behaviour cb [value; options] s = Normal (f cb value options) s.

(** A completion with the returned value dropped. *)
Definition discard {Value World A} (c : @Completion Value World A) : @Completion Value World unit :=
  match c with
  | Normal _ s => Normal tt s
  | Throw e s => Throw e s
  | Diverge => Diverge
  end.

(** * Properties *)

(** ** The sort *)

Lemma insert_by_Permutation {A} (c : A -> A -> Z) x l :
  insert_by c x l ≡ₚ x :: l.
Proof.
  induction l as [|y ys IH]; simpl; [done|].
  destruct (c x y <=? 0); [done|].
  rewrite IH. apply Permutation_swap.
Qed.

Lemma sort_by_Permutation {A} (c : A -> A -> Z) l : sort_by c l ≡ₚ l.
Proof.
  induction l as [|x xs IH]; simpl; [done|].
  by rewrite insert_by_Permutation, IH.
Qed.

Lemma insert_by_priority_sorted x l :
  StronglySorted priority_le l →
  StronglySorted priority_le (insert_by by_priority x l).
Proof.
  induction 1 as [|y ys Hs IH Hall]; simpl.
  - repeat constructor.
  - unfold by_priority at 1.
    destruct (Z.leb_spec (priority x - priority y) 0) as [Hle|Hgt].
    + constructor; [by constructor|].
      constructor; [unfold priority_le; lia|].
      eapply Forall_impl; [exact Hall|].
      unfold priority_le; simpl; intros; lia.
    + constructor; [exact IH|].
      rewrite insert_by_Permutation.
      constructor; [unfold priority_le; lia | exact Hall].
Qed.

Lemma sort_by_priority_sorted l :
  StronglySorted priority_le (sort_by by_priority l).
Proof.
  induction l as [|x xs IH]; simpl; [constructor|].
  by apply insert_by_priority_sorted.
Qed.

Lemma insert_by_priority_filter p x l :
  StronglySorted priority_le l →
  List.filter (same_priority p) (insert_by by_priority x l)
  = List.filter (same_priority p) (x :: l).
Proof.
  induction 1 as [|y ys Hs IH Hall]; [done|].
  cbn [insert_by]. unfold by_priority at 1.
  destruct (Z.leb_spec (priority x - priority y) 0) as [Hle|Hgt]; [done|].
  cbn [List.filter] in *. rewrite IH.
  destruct (same_priority p x) eqn:Hx, (same_priority p y) eqn:Hy; try done.
  unfold same_priority in Hx, Hy.
  apply bool_decide_eq_true in Hx, Hy. lia.
Qed.

Lemma sort_by_priority_filter p l :
  List.filter (same_priority p) (sort_by by_priority l)
  = List.filter (same_priority p) l.
Proof.
  induction l as [|x xs IH]; [done|].
  cbn [sort_by]. rewrite insert_by_priority_filter by apply sort_by_priority_sorted.
  cbn [List.filter]. by rewrite IH.
Qed.

Lemma sort_by_priority_stable l :
  stable_by_priority (sort_by by_priority l) l.
Proof.
  split; [apply sort_by_Permutation|].
  split; [apply sort_by_priority_sorted | intros p; apply sort_by_priority_filter].
Qed.

Lemma same_priority_refl h : same_priority (priority h) h = true.
Proof. unfold same_priority. by apply bool_decide_eq_true. Qed.

Lemma same_order_head_le x l1 y l2 :
  StronglySorted priority_le (x :: l1) →
  same_order (x :: l1) (y :: l2) →
  priority x <= priority y.
Proof.
  intros Hs Ho. specialize (Ho (priority y)).
  assert (Hin : In y (List.filter (same_priority (priority y)) (x :: l1))).
  { rewrite Ho. cbn [List.filter]. rewrite same_priority_refl. by left. }
  apply filter_In in Hin as [[<-|Hin] _]; [lia|].
  apply StronglySorted_inv in Hs as [_ Hall].
  rewrite Forall_forall in Hall. apply Hall. by apply list_elem_of_In.
Qed.

Lemma sorted_same_order_eq l1 : ∀ l2,
  StronglySorted priority_le l1 →
  StronglySorted priority_le l2 →
  same_order l1 l2 →
  l1 = l2.
Proof.
  induction l1 as [|x l1 IH]; intros [|y l2] H1 H2 Ho.
  - done.
  - specialize (Ho (priority y)). cbn [List.filter] in Ho.
    by rewrite same_priority_refl in Ho.
  - specialize (Ho (priority x)). cbn [List.filter] in Ho.
    by rewrite same_priority_refl in Ho.
  - assert (Hp : priority x = priority y).
    { pose proof (same_order_head_le _ _ _ _ H1 Ho).
      assert (Ho' : same_order (y :: l2) (x :: l1)) by (intros p; by rewrite Ho).
      pose proof (same_order_head_le _ _ _ _ H2 Ho'). lia. }
    pose proof (Ho (priority x)) as Hx. cbn [List.filter] in Hx.
    rewrite same_priority_refl in Hx. rewrite Hp in Hx at 2.
    rewrite same_priority_refl in Hx. injection Hx as -> Hx.
    f_equal. apply IH.
    + by apply StronglySorted_inv in H1 as [? _].
    + by apply StronglySorted_inv in H2 as [? _].
    + intros p. specialize (Ho p). cbn [List.filter] in Ho.
      destruct (same_priority p y); [by injection Ho | done].
Qed.

(** The stable sort is unique: whatever algorithm an engine uses for
    [Array.prototype.sort], the result is [sort_by by_priority]. *)
Lemma stable_sort_unique order l :
  stable_by_priority order l → order = sort_by by_priority l.
Proof.
  intros (_ & Hs & Ho). apply sorted_same_order_eq; [done|apply sort_by_priority_sorted|].
  intros p. by rewrite Ho, sort_by_priority_filter.
Qed.

Lemma same_order_sort l1 l2 :
  same_order l1 l2 → sort_by by_priority l1 = sort_by by_priority l2.
Proof.
  intros Ho. apply sorted_same_order_eq; try apply sort_by_priority_sorted.
  intros p. by rewrite !sort_by_priority_filter.
Qed.

Lemma sort_by_sorted_id l :
  StronglySorted priority_le l → sort_by by_priority l = l.
Proof.
  intros Hs. symmetry. apply stable_sort_unique. by repeat split.
Qed.

Lemma sort_by_priority_idem l :
  sort_by by_priority (sort_by by_priority l) = sort_by by_priority l.
Proof. apply sort_by_sorted_id, sort_by_priority_sorted. Qed.

(** ** Property access *)

Lemma inherited_not_array key l : Object_prototype !! key ≠ Some (JsArray l).
Proof.
  intros H. apply elem_of_list_to_map_2 in H.
  repeat (apply elem_of_cons in H as [H|H]; [discriminate H|]).
  by apply elem_of_nil in H.
Qed.

Lemma inherited_proto : Object_prototype !! "__proto__" = Some JsObject.
Proof. reflexivity. Qed.

(** An array read under a tag is an own property: nothing inherited is
    an array. *)
Lemma Get_array (o : Table) key l :
  Get o key = JsArray l ↔ o !! key = Some (JsArray l).
Proof.
  unfold Get. split.
  - destruct (o !! key) as [v|]; [by intros ->|].
    destruct (Object_prototype !! key) as [v|] eqn:E; simpl; [|done].
    intros ->. by apply inherited_not_array in E.
  - by intros ->.
Qed.

Lemma Get_ordinary (o : Table) key :
  ordinary key → Get o key = default JsUndefined (o !! key).
Proof. unfold Get, ordinary. intros ->. by destruct (o !! key). Qed.

Lemma Get_insert_eq (o : Table) key v : Get (<[key := v]> o) key = v.
Proof. unfold Get. by rewrite lookup_insert_eq. Qed.

Lemma Get_insert_ne (o : Table) key key' v :
  key ≠ key' → Get (<[key := v]> o) key' = Get o key'.
Proof. intros. unfold Get. by rewrite lookup_insert_ne. Qed.

Lemma Set_own (o : Table) key v : is_Some (o !! key) → Set_ o key v = <[key := v]> o.
Proof. intros [w E]. unfold Set_. by rewrite E. Qed.

Lemma Set_undefined (o : Table) key v :
  Get o key = JsUndefined → Set_ o key v = <[key := v]> o.
Proof.
  unfold Get, Set_. destruct (o !! key); [done|].
  destruct (String.eqb_spec key "__proto__") as [->|]; [|done].
  by rewrite inherited_proto.
Qed.

Lemma Set_array (o : Table) key l v :
  Get o key = JsArray l → Set_ o key v = <[key := v]> o.
Proof. intros H%Get_array. apply Set_own. by rewrite H. Qed.

(** Assigning back the value just read leaves every read as it was. *)
Lemma Get_Set_same (o : Table) key key' v :
  Get o key = v → Get (Set_ o key v) key' = Get o key'.
Proof.
  intros <-. unfold Set_. destruct (o !! key) as [v|] eqn:E.
  - unfold Get at 2. rewrite E. by rewrite insert_id.
  - destruct (String.eqb key "__proto__"); [done|].
    destruct (decide (key = key')) as [<-|Hne].
    + by rewrite Get_insert_eq.
    + by rewrite Get_insert_ne.
Qed.

Lemma table_with_table st t h : table st (with_table st t h) = t.
Proof. by destruct st. Qed.

Lemma table_with_table_ne st st' t h :
  st ≠ st' → table st' (with_table st t h) = table st' h.
Proof. by destruct st, st'. Qed.

Lemma with_table_with_table st t t' h :
  with_table st t' (with_table st t h) = with_table st t' h.
Proof. by destruct st. Qed.

Lemma with_table_table st h : with_table st (table st h) h = h.
Proof. by destruct st, h. Qed.

(** ** The methods, case by case *)

Section Methods.

Context {Value World : Type}.
Variable behaviour : Callback -> list Value -> @State World -> @Completion Value World Value.

Abbreviation State := (@State World).
Abbreviation M := (@M Value World).
Abbreviation Run := (@Run Value World).
Abbreviation done_ := (@done_ Value World).
Abbreviation failed := (@failed Value World).
Abbreviation register := (@register Value World).
Abbreviation unregister := (@unregister Value World).
Abbreviation has := (@has Value World).
Abbreviation run_actions := (run_actions behaviour).
Abbreviation fold_filters := (fold_filters behaviour).

Implicit Types s : State.

Lemma slot_put_eq st tag v s : slot st tag (put st tag v s) = v.
Proof. unfold slot, put; simpl. by rewrite table_with_table, Get_insert_eq. Qed.

Lemma slot_put_ne st tag tag' v s :
  tag ≠ tag' → slot st tag' (put st tag v s) = slot st tag' s.
Proof. intros. unfold slot, put; simpl. by rewrite table_with_table, Get_insert_ne. Qed.

Lemma slot_put_other st st' tag tag' v s :
  st ≠ st' → slot st' tag' (put st tag v s) = slot st' tag' s.
Proof. intros. unfold slot, put; simpl. by rewrite table_with_table_ne. Qed.

Lemma slot_put_cases st tag v (s : State) st' tag' :
  slot st' tag' (put st tag v s)
  = if decide ((st', tag') = (st, tag)) then v else slot st' tag' s.
Proof.
  case_decide as Hd.
  - injection Hd as -> ->. apply slot_put_eq.
  - destruct (decide (st = st')) as [<-|Hst].
    + apply slot_put_ne. congruence.
    + by apply slot_put_other.
Qed.

Lemma put_put st tag v w s : put st tag w (put st tag v s) = put st tag w s.
Proof.
  unfold put; simpl. by rewrite table_with_table, insert_insert_eq, with_table_with_table.
Qed.

Lemma put_same st tag l s : slot st tag s = JsArray l → put st tag (JsArray l) s = s.
Proof.
  unfold slot, put. intros H%Get_array. rewrite insert_id by done.
  rewrite with_table_table. by destruct s.
Qed.

(** *** Registration *)

Lemma register_array st tag cb p s l :
  slot st tag s = JsArray l →
  register st tag cb p s = done_ tt (put st tag (JsArray (l ++ [entry cb p])) s).
Proof.
  unfold slot. intros H.
  destruct st; unfold register, addAction, addFilter, Array_push, bind, read, assign, ret, done_, put;
    simpl in *; rewrite H; simpl;
    rewrite (Set_array _ _ _ _ H), Get_insert_eq; simpl;
    rewrite Set_own by (rewrite lookup_insert_eq; eauto);
    by rewrite insert_insert_eq.
Qed.

Lemma register_undefined st tag cb p s :
  slot st tag s = JsUndefined →
  register st tag cb p s = done_ tt (put st tag (JsArray [entry cb p]) s).
Proof.
  unfold slot. intros H.
  destruct st; unfold register, addAction, addFilter, Array_push, bind, read, assign, ret, done_, put;
    simpl in *; rewrite H; simpl;
    rewrite (Set_undefined _ _ _ H), Get_insert_eq; simpl;
    rewrite Set_own by (rewrite lookup_insert_eq; eauto);
    by rewrite insert_insert_eq.
Qed.

(** On a tag that reads as something inherited, [|| []] keeps the
    inherited value, which has no [push]. *)
Lemma register_inherited st tag cb p s :
  slot st tag s = JsObject ∨ (∃ n, slot st tag s = JsBuiltin n) →
  ∃ s', register st tag cb p s = failed "push is not a function" s'
        ∧ world s' = world s
        ∧ ∀ st' tag', slot st' tag' s' = slot st' tag' s.
Proof.
  unfold slot. intros H.
  eexists {| hooks := with_table st (Set_ (table st (hooks s)) tag (Get (table st (hooks s)) tag)) (hooks s);
             world := world s |}.
  split; [|split; [done|]].
  - destruct st, H as [H|[n H]];
      unfold register, addAction, addFilter, Array_push, bind, read, assign, ret, failed,
        not_a_function, throw, or_else;
      simpl in *; rewrite H; simpl; rewrite (Get_Set_same _ _ _ _ H), H; reflexivity.
  - intros st' tag'. unfold slot; simpl.
    destruct (decide (st = st')) as [<-|Hne].
    + rewrite table_with_table. by apply Get_Set_same.
    + by rewrite table_with_table_ne.
Qed.

(** *** Removal *)

Lemma unregister_array st tag cb s l :
  slot st tag s = JsArray l →
  unregister st tag cb s = done_ tt (put st tag (JsArray (without cb l)) s).
Proof.
  unfold slot. intros H.
  destruct st; unfold unregister, removeAction, removeFilter, Array_filter, bind, read, assign, ret,
    done_, put, without; simpl in *; repeat (rewrite H; simpl);
    by rewrite (Set_array _ _ _ _ H).
Qed.

Lemma unregister_undefined st tag cb s :
  slot st tag s = JsUndefined → unregister st tag cb s = done_ tt s.
Proof.
  unfold slot. intros H.
  destruct st; unfold unregister, removeAction, removeFilter, bind, read, ret, done_;
    simpl in *; by rewrite H.
Qed.

Lemma unregister_inherited st tag cb s :
  slot st tag s = JsObject ∨ (∃ n, slot st tag s = JsBuiltin n) →
  unregister st tag cb s = failed "filter is not a function" s.
Proof.
  unfold slot. intros H.
  destruct st, H as [H|[n H]];
    unfold unregister, removeAction, removeFilter, Array_filter, bind, read, ret, failed,
      not_a_function, throw; simpl in *; by repeat (rewrite H; simpl).
Qed.

(** *** Queries *)

Lemma has_spec st tag s :
  has st tag s = done_ (truthy (slot st tag s) && length_gt_0 (slot st tag s)) s.
Proof.
  unfold slot.
  destruct st; unfold has, hasAction, hasFilter, bind, read, ret, done_; simpl;
    [destruct (Get (actions (hooks s)) tag) eqn:E
    | destruct (Get (filters (hooks s)) tag) eqn:E];
    simpl; rewrite ?E; reflexivity.
Qed.

(** *** Dispatch *)

Lemma getSortedCallbacks_array st tag s l :
  slot st tag s = JsArray l →
  _getSortedCallbacks (st, tag) s
  = done_ (List.map callback (sort_by by_priority l))
          (put st tag (JsArray (sort_by by_priority l)) s).
Proof.
  unfold slot. intros H.
  unfold _getSortedCallbacks, Array_sort, Array_map, bind, read, assign, ret, done_, put;
    simpl; rewrite H; simpl.
  rewrite (Set_array _ _ _ _ H), table_with_table, Get_insert_eq. reflexivity.
Qed.

Lemma getSortedCallbacks_inherited {A} st tag s (k : list Callback -> M A) :
  slot st tag s = JsObject ∨ (∃ n, slot st tag s = JsBuiltin n) →
  bind (_getSortedCallbacks (st, tag)) k s = failed "sort is not a function" s.
Proof.
  unfold slot. intros H.
  destruct H as [H|[n H]];
    unfold _getSortedCallbacks, Array_sort, bind, read, ret, failed, not_a_function, throw;
    simpl; by rewrite H.
Qed.

Lemma call_then_ret cb args s :
  bind (call behaviour cb args) (fun _ => ret tt) s
  = {| calls := [(cb, args)];
       completion := match behaviour cb args s with
                     | Normal _ s' => Normal tt s'
                     | Throw e s' => Throw e s'
                     | Diverge => Diverge
                     end |}.
Proof. unfold bind, call, ret; simpl. by destruct (behaviour cb args s). Qed.

Lemma forEach_actions options cbs s :
  forEach cbs (fun callback _ => bind (call behaviour callback [options]) (fun _ => ret tt)) tt s
  = run_actions options cbs s.
Proof.
  revert s. induction cbs as [|cb rest IH]; intros s; [done|].
  cbn [forEach run_actions]. unfold bind at 1. rewrite call_then_ret. simpl.
  destruct (behaviour cb [options] s) as [v s'|e s'|]; simpl; [|done|done].
  by rewrite IH.
Qed.

Lemma forEach_filters options cbs value s :
  forEach cbs (fun callback value => call behaviour callback [value; options]) value s
  = fold_filters options cbs value s.
Proof.
  revert value s. induction cbs as [|cb rest IH]; intros value s; [done|].
  cbn [forEach fold_filters]. unfold bind at 1. unfold call at 1. simpl.
  destruct (behaviour cb [value; options] s) as [v s'|e s'|]; simpl; [|done|done].
  by rewrite IH.
Qed.

Lemma bind_ret_eta {A} (m : M A) s : bind m ret s = m s.
Proof.
  unfold bind, ret. destruct (m s) as [c [a s'|e s'|]]; simpl; [|done|done].
  by rewrite app_nil_r.
Qed.

Lemma bind_done {A B} (m : M A) (k : A -> M B) s a s' :
  m s = done_ a s' → bind m k s = k a s'.
Proof. intros H. unfold bind. rewrite H. simpl. by destruct (k a s'). Qed.

Lemma bind_failed {A B} (m : M A) (k : A -> M B) s msg s' :
  m s = failed msg s' → bind m k s = failed msg s'.
Proof. intros H. unfold bind. by rewrite H. Qed.

Lemma read_spec st tag s : read st tag s = done_ (slot st tag s) s.
Proof. reflexivity. Qed.

Lemma doAction_array tag options s l :
  slot Actions tag s = JsArray l →
  doAction behaviour tag options s
  = run_actions options (List.map callback (sort_by by_priority l))
      (put Actions tag (JsArray (sort_by by_priority l)) s).
Proof.
  intros H. unfold doAction.
  rewrite (bind_done _ _ _ _ _ (read_spec _ _ _)), H. simpl.
  rewrite (bind_done _ _ _ _ _ (getSortedCallbacks_array _ _ _ _ H)).
  apply forEach_actions.
Qed.

Lemma applyFilters_array tag value options s l :
  slot Filters tag s = JsArray l →
  applyFilters behaviour tag value options s
  = fold_filters options (List.map callback (sort_by by_priority l)) value
      (put Filters tag (JsArray (sort_by by_priority l)) s).
Proof.
  intros H. unfold applyFilters.
  rewrite (bind_done _ _ _ _ _ (read_spec _ _ _)), H. simpl.
  rewrite (bind_done _ _ _ _ _ (getSortedCallbacks_array _ _ _ _ H)).
  rewrite bind_ret_eta. apply forEach_filters.
Qed.

Lemma doAction_undefined tag options s :
  slot Actions tag s = JsUndefined → doAction behaviour tag options s = done_ tt s.
Proof.
  intros H. unfold doAction.
  by rewrite (bind_done _ _ _ _ _ (read_spec _ _ _)), H.
Qed.

Lemma applyFilters_undefined tag value options s :
  slot Filters tag s = JsUndefined →
  applyFilters behaviour tag value options s = done_ value s.
Proof.
  intros H. unfold applyFilters.
  by rewrite (bind_done _ _ _ _ _ (read_spec _ _ _)), H.
Qed.

Lemma doAction_inherited tag options s :
  slot Actions tag s = JsObject ∨ (∃ n, slot Actions tag s = JsBuiltin n) →
  doAction behaviour tag options s = failed "sort is not a function" s.
Proof.
  intros H. unfold doAction.
  rewrite (bind_done _ _ _ _ _ (read_spec _ _ _)).
  destruct H as [H|[n H]]; rewrite H; simpl;
    apply getSortedCallbacks_inherited; rewrite H; eauto.
Qed.

Lemma applyFilters_inherited tag value options s :
  slot Filters tag s = JsObject ∨ (∃ n, slot Filters tag s = JsBuiltin n) →
  applyFilters behaviour tag value options s = failed "sort is not a function" s.
Proof.
  intros H. unfold applyFilters.
  rewrite (bind_done _ _ _ _ _ (read_spec _ _ _)).
  destruct H as [H|[n H]]; rewrite H; simpl;
    apply getSortedCallbacks_inherited; rewrite H; eauto.
Qed.

(** On a tag that reads as an array or as nothing, a dispatch is the run
    of the callbacks of the entries in their stable priority order, on
    the state with the array sorted. *)
Lemma doAction_plain tag options s :
  plain Actions tag s →
  doAction behaviour tag options s
  = run_actions options (List.map callback (sort_by by_priority (entries Actions tag s)))
      (with_sorted Actions tag (sort_by by_priority (entries Actions tag s)) s).
Proof.
  unfold entries, with_sorted. intros [E|[l E]]; rewrite E.
  - by apply doAction_undefined.
  - by apply doAction_array.
Qed.

Lemma applyFilters_plain tag value options s :
  plain Filters tag s →
  applyFilters behaviour tag value options s
  = fold_filters options (List.map callback (sort_by by_priority (entries Filters tag s))) value
      (with_sorted Filters tag (sort_by by_priority (entries Filters tag s)) s).
Proof.
  unfold entries, with_sorted. intros [E|[l E]]; rewrite E.
  - by apply applyFilters_undefined.
  - by apply applyFilters_array.
Qed.

End Methods.

(** ** Dispatch *)

Section Dispatch.

Context {Value World : Type}.
Variable behaviour : Callback -> list Value -> @State World -> @Completion Value World Value.

Abbreviation State := (@State World).

Implicit Types s sk se : State.

Lemma run_actions_calls options cbs s :
  calls (run_actions behaviour options cbs s) `prefix_of` List.map (fun cb => (cb, [options])) cbs
  ∧ (∀ s', completion (run_actions behaviour options cbs s) = Normal tt s' →
       calls (run_actions behaviour options cbs s) = List.map (fun cb => (cb, [options])) cbs).
Proof.
  revert s. induction cbs as [|cb rest IH]; intros s; simpl.
  - split; [apply prefix_nil | done].
  - destruct (behaviour cb [options] s) as [v s1|e s1|]; simpl.
    + destruct (IH s1) as [Hp He]. split.
      * by apply prefix_cons.
      * intros s' Hs'. f_equal. by eapply He.
    + split; [apply prefix_cons, prefix_nil | done].
    + split; [apply prefix_cons, prefix_nil | done].
Qed.

Lemma fold_filters_calls options cbs value s :
  List.map fst (calls (fold_filters behaviour options cbs value s)) `prefix_of` cbs
  ∧ (∀ v' s', completion (fold_filters behaviour options cbs value s) = Normal v' s' →
       List.map fst (calls (fold_filters behaviour options cbs value s)) = cbs).
Proof.
  revert value s. induction cbs as [|cb rest IH]; intros value s; simpl.
  - split; [apply prefix_nil | done].
  - destruct (behaviour cb [value; options] s) as [v s1|e s1|]; simpl.
    + destruct (IH v s1) as [Hp He]. split.
      * by apply prefix_cons.
      * intros v' s' Hs'. f_equal. by eapply He.
    + split; [apply prefix_cons, prefix_nil | done].
    + split; [apply prefix_cons, prefix_nil | done].
Qed.

(** A run that stops at the first callback that throws. *)
Lemma run_actions_throw options pre ck post s sk e se :
  completion (run_actions behaviour options pre s) = Normal tt sk →
  behaviour ck [options] sk = Throw e se →
  completion (run_actions behaviour options (pre ++ ck :: post) s) = Throw e se
  ∧ List.map fst (calls (run_actions behaviour options (pre ++ ck :: post) s)) = pre ++ [ck].
Proof.
  revert s. induction pre as [|cb rest IH]; intros s; simpl.
  - intros [= ->] ->. done.
  - destruct (behaviour cb [options] s) as [v s1|e1 s1|]; simpl; [|done|done].
    intros Hk Hc. destruct (IH s1 Hk Hc) as [-> ->]. done.
Qed.

Lemma fold_filters_throw options pre ck post value s vk sk e se :
  completion (fold_filters behaviour options pre value s) = Normal vk sk →
  behaviour ck [vk; options] sk = Throw e se →
  completion (fold_filters behaviour options (pre ++ ck :: post) value s) = Throw e se
  ∧ List.map fst (calls (fold_filters behaviour options (pre ++ ck :: post) value s))
    = pre ++ [ck].
Proof.
  revert value s. induction pre as [|cb rest IH]; intros value s; simpl.
  - intros [= -> ->] ->. done.
  - destruct (behaviour cb [value; options] s) as [v s1|e1 s1|]; simpl; [|done|done].
    intros Hk Hc. destruct (IH v s1 Hk Hc) as [-> ->]. done.
Qed.

Lemma run_actions_frame options cbs s s' :
  leaves_registry behaviour →
  final (completion (run_actions behaviour options cbs s)) = Some s' →
  hooks s' = hooks s.
Proof.
  intros Hf. revert s. induction cbs as [|cb rest IH]; intros s; simpl.
  - by intros [= ->].
  - destruct (behaviour cb [options] s) as [v s1|e s1|] eqn:E; simpl.
    + intros H. rewrite (IH _ H). eapply Hf. by rewrite E.
    + intros [= <-]. eapply Hf. by rewrite E.
    + done.
Qed.

Lemma fold_filters_frame options cbs value s s' :
  leaves_registry behaviour →
  final (completion (fold_filters behaviour options cbs value s)) = Some s' →
  hooks s' = hooks s.
Proof.
  intros Hf. revert value s. induction cbs as [|cb rest IH]; intros value s; simpl.
  - by intros [= ->].
  - destruct (behaviour cb [value; options] s) as [v s1|e s1|] eqn:E; simpl.
    + intros H. rewrite (IH _ _ H). eapply Hf. by rewrite E.
    + intros [= <-]. eapply Hf. by rewrite E.
    + done.
Qed.

End Dispatch.

(** ** The arrays agree with the history *)

Section Consistency.

Context {Value Vars : Type}.

Abbreviation State := (@State (World Vars)).
Abbreviation Completion := (@Completion Value (World Vars)).
Abbreviation M := (@M Value (World Vars)).
Abbreviation consistent := (@consistent Vars).
Abbreviation after := (@after Value Vars).

Lemma completion_bind {A B} (m : M A) (k : A -> M B) s :
  completion (bind m k s)
  = match completion (m s) with
    | Normal a s' => completion (k a s')
    | Throw e s' => Throw e s'
    | Diverge => Diverge
    end.
Proof. unfold bind. by destruct (completion (m s)). Qed.

Lemma after_bind {A B} P (m : M A) (k : A -> M B) s :
  after P (completion (m s)) →
  (∀ a s', completion (m s) = Normal a s' → after P (completion (k a s'))) →
  after P (completion (bind m k s)).
Proof.
  intros Hm Hk. rewrite completion_bind.
  destruct (completion (m s)) as [a s1|e s1|] eqn:E; [by apply Hk | exact Hm | done].
Qed.

Lemma same_order_refl l : same_order l l.
Proof. done. Qed.

Lemma same_order_trans l1 l2 l3 : same_order l1 l2 → same_order l2 l3 → same_order l1 l3.
Proof. intros H1 H2 p. by rewrite H1. Qed.

Lemma same_order_app l1 l2 h : same_order l1 l2 → same_order (l1 ++ [h]) (l2 ++ [h]).
Proof. intros H p. by rewrite !List.filter_app, H. Qed.

Lemma filter_filter_comm {A} (f g : A -> bool) l :
  List.filter f (List.filter g l) = List.filter g (List.filter f l).
Proof.
  induction l as [|x l IH]; [done|]. simpl.
  destruct (f x) eqn:Hf, (g x) eqn:Hg; simpl; rewrite ?Hf, ?Hg, IH; done.
Qed.

Lemma same_order_without cb l1 l2 : same_order l1 l2 → same_order (without cb l1) (without cb l2).
Proof.
  intros H p. unfold without. by rewrite filter_filter_comm, H, filter_filter_comm.
Qed.

Lemma same_order_sort_l l : same_order (sort_by by_priority l) l.
Proof. intros p. apply sort_by_priority_filter. Qed.

Lemma same_order_nil l : same_order l [] → l = [].
Proof.
  destruct l as [|h l]; [done|]. intros H. specialize (H (priority h)).
  simpl in H. by rewrite same_priority_refl in H.
Qed.

Lemma consistent_initial vars : consistent (initial vars).
Proof.
  intros st tag. unfold slot, initial; simpl.
  assert (Ho : ordinary tag → Get (table st new_Hooks) tag = JsUndefined).
  { intros Ho. rewrite Get_ordinary by done. by destruct st. }
  destruct (Get (table st new_Hooks) tag) eqn:E; try done.
  apply Get_array in E. by destruct st.
Qed.

(** Consistency looks at what is read under each tag and at the history
    only. *)
Lemma consistent_ext (s s' : State) :
  (∀ st tag, slot st tag s' = slot st tag s) →
  (world s').2 = (world s).2 →
  consistent s → consistent s'.
Proof. intros Hs Hw Hc st tag. rewrite Hs, Hw. apply Hc. Qed.

Lemma consistent_put (s : State) st tag l ev :
  consistent s →
  same_order l (registered (ev :: (world s).2) st tag) →
  (∀ st' tag', (st', tag') ≠ (st, tag) →
     registered (ev :: (world s).2) st' tag' = registered (world s).2 st' tag') →
  consistent {| hooks := hooks (put st tag (JsArray l) s);
                world := ((world s).1, ev :: (world s).2) |}.
Proof.
  intros Hc Hl Hother st' tag'.
  destruct (decide ((st', tag') = (st, tag))) as [[= -> ->]|Hne].
  - assert (E : slot st tag {| hooks := hooks (put st tag (JsArray l) s);
                               world := ((world s).1, ev :: (world s).2) |} = JsArray l)
      by apply (slot_put_eq st tag (JsArray l) s).
    rewrite E. exact Hl.
  - assert (E : slot st' tag' {| hooks := hooks (put st tag (JsArray l) s);
                                 world := ((world s).1, ev :: (world s).2) |}
                = slot st' tag' s).
    { destruct (decide (st = st')) as [<-|Hst].
      - apply (slot_put_ne st tag tag' (JsArray l) s). congruence.
      - by apply (slot_put_other st st' tag tag' (JsArray l) s). }
    rewrite E. cbn [world snd]. rewrite Hother by done. apply Hc.
Qed.

Lemma registered_other ev (log : History) st tag st' tag' :
  match ev with
  | Registered st0 tag0 _ | Removed st0 tag0 _ => (st0, tag0) = (st, tag)
  end →
  (st', tag') ≠ (st, tag) →
  registered (ev :: log) st' tag' = registered log st' tag'.
Proof.
  intros Hev Hne. destruct ev; injection Hev as -> ->; cbn [registered];
    case_decide as Hd; try done; destruct Hd as [-> ->]; done.
Qed.

Lemma registered_here_add (log : History) st tag h :
  registered (Registered st tag h :: log) st tag = registered log st tag ++ [h].
Proof. cbn [registered]. by rewrite decide_True. Qed.

Lemma registered_here_remove (log : History) st tag cb :
  registered (Removed st tag cb :: log) st tag = without cb (registered log st tag).
Proof. cbn [registered]. by rewrite decide_True. Qed.

End Consistency.

Section Preservation.

Context {Value Vars : Type}.

Abbreviation State := (@State (World Vars)).
Abbreviation Completion := (@Completion Value (World Vars)).
Abbreviation M := (@M Value (World Vars)).
Abbreviation consistent := (@consistent Vars).
Abbreviation after := (@after Value Vars).

Lemma consistent_sorted (s : State) st tag l :
  consistent s → slot st tag s = JsArray l →
  consistent (put st tag (JsArray (sort_by by_priority l)) s).
Proof.
  intros Hc E st' tag'. rewrite slot_put_cases. cbn [world put].
  case_decide as Hd.
  - injection Hd as -> ->. eapply same_order_trans; [apply same_order_sort_l|].
    specialize (Hc st tag). by rewrite E in Hc.
  - apply Hc.
Qed.

Lemma registering_consistent st tag cb p (s : State) :
  consistent s → after (A := unit) consistent (completion (registering (Value := Value) st tag cb p s)).
Proof.
  intros Hc s' Hfin. unfold registering in Hfin.
  pose proof (Hc st tag) as Hhere.
  destruct (slot st tag s) as [|l|n|] eqn:E.
  - rewrite (bind_done _ _ _ _ _ (register_undefined _ _ _ _ _ E)) in Hfin.
    injection Hfin as <-. apply consistent_put; [done| |].
    + destruct Hhere as [Hreg _]. rewrite registered_here_add, Hreg. apply same_order_refl.
    + intros st' tag' Hne. by apply (registered_other _ _ st tag).
  - rewrite (bind_done _ _ _ _ _ (register_array _ _ _ _ _ _ E)) in Hfin.
    injection Hfin as <-. apply consistent_put; [done| |].
    + rewrite registered_here_add. by apply same_order_app.
    + intros st' tag' Hne. by apply (registered_other _ _ st tag).
  - destruct (register_inherited (Value := Value) st tag cb p s) as (s1 & Hr & Hw & Hs).
    { right. eauto. }
    rewrite (bind_failed _ _ _ _ _ Hr) in Hfin. injection Hfin as <-.
    eapply consistent_ext; [exact Hs | by rewrite Hw | done].
  - destruct (register_inherited (Value := Value) st tag cb p s) as (s1 & Hr & Hw & Hs).
    { by left. }
    rewrite (bind_failed _ _ _ _ _ Hr) in Hfin. injection Hfin as <-.
    eapply consistent_ext; [exact Hs | by rewrite Hw | done].
Qed.

Lemma unregistering_consistent st tag cb (s : State) :
  consistent s → after (A := unit) consistent (completion (unregistering (Value := Value) st tag cb s)).
Proof.
  intros Hc s' Hfin. unfold unregistering in Hfin.
  pose proof (Hc st tag) as Hhere.
  destruct (slot st tag s) as [|l|n|] eqn:E.
  - rewrite (bind_done _ _ _ _ _ (unregister_undefined _ _ _ _ E)) in Hfin.
    injection Hfin as <-. intros st' tag'.
    change (slot st' tag' _) with (slot st' tag' s). cbn [world snd].
    destruct (decide ((st', tag') = (st, tag))) as [[= -> ->]|Hne].
    + destruct Hhere as [Hreg _]. rewrite E, registered_here_remove, Hreg. done.
    + rewrite registered_other with (st := st) (tag := tag) by done. apply Hc.
  - rewrite (bind_done _ _ _ _ _ (unregister_array _ _ _ _ _ E)) in Hfin.
    injection Hfin as <-. apply consistent_put; [done| |].
    + rewrite registered_here_remove. by apply same_order_without.
    + intros st' tag' Hne. by apply (registered_other _ _ st tag).
  - rewrite (bind_failed _ _ _ _ _ (unregister_inherited _ _ _ _ (or_intror (ex_intro _ n E)))) in Hfin.
    by injection Hfin as <-.
  - rewrite (bind_failed _ _ _ _ _ (unregister_inherited _ _ _ _ (or_introl E))) in Hfin.
    by injection Hfin as <-.
Qed.

Section Callbacks.

Variable b : Callback -> list Value -> State -> Completion Value.
Hypothesis b_consistent : ∀ cb args s, consistent s → after consistent (b cb args s).

Lemma run_actions_consistent options cbs (s : State) :
  consistent s → after consistent (completion (run_actions b options cbs s)).
Proof.
  revert s. induction cbs as [|cb rest IH]; intros s Hc s'; simpl.
  - by intros [= <-].
  - pose proof (b_consistent cb [options] s Hc) as Hb.
    destruct (b cb [options] s) as [v s1|e s1|]; simpl.
    + apply IH. by apply Hb.
    + intros [= <-]. by apply Hb.
    + done.
Qed.

Lemma fold_filters_consistent options cbs value (s : State) :
  consistent s → after consistent (completion (fold_filters b options cbs value s)).
Proof.
  revert value s. induction cbs as [|cb rest IH]; intros value s Hc s'; simpl.
  - by intros [= <-].
  - pose proof (b_consistent cb [value; options] s Hc) as Hb.
    destruct (b cb [value; options] s) as [v s1|e s1|]; simpl.
    + apply IH. by apply Hb.
    + intros [= <-]. by apply Hb.
    + done.
Qed.

Lemma doAction_consistent tag options (s : State) :
  consistent s → after consistent (completion (doAction b tag options s)).
Proof.
  intros Hc. destruct (slot Actions tag s) as [|l|n|] eqn:E.
  - rewrite doAction_undefined by done. by intros s' [= <-].
  - rewrite (doAction_array _ _ _ _ _ E).
    by apply run_actions_consistent, consistent_sorted.
  - rewrite doAction_inherited by eauto. by intros s' [= <-].
  - rewrite doAction_inherited by eauto. by intros s' [= <-].
Qed.

Lemma applyFilters_consistent tag value options (s : State) :
  consistent s → after consistent (completion (applyFilters b tag value options s)).
Proof.
  intros Hc. destruct (slot Filters tag s) as [|l|n|] eqn:E.
  - rewrite applyFilters_undefined by done. by intros s' [= <-].
  - rewrite (applyFilters_array _ _ _ _ _ _ E).
    by apply fold_filters_consistent, consistent_sorted.
  - rewrite applyFilters_inherited by eauto. by intros s' [= <-].
  - rewrite applyFilters_inherited by eauto. by intros s' [= <-].
Qed.

(** A program keeps the arrays and the history in agreement, if the
    callbacks it causes to run do. *)
Lemma exec_consistent (p : Prog) : ∀ s : State,
  consistent s → after consistent (completion (exec b p s)).
Proof.
  induction p as [v|v|st tag cb pr k IH|st tag cb k IH|tag o k IH|tag v o k IH|st tag k IH
                  |k IH|vars k IH|body IHb handler IHh k IHk]; intros s Hc; cbn [exec].
  - by intros s' [= <-].
  - by intros s' [= <-].
  - apply after_bind; [by apply registering_consistent|].
    intros [] s1 E. apply IH. eapply registering_consistent; [exact Hc|]. by rewrite E.
  - apply after_bind; [by apply unregistering_consistent|].
    intros [] s1 E. apply IH. eapply unregistering_consistent; [exact Hc|]. by rewrite E.
  - apply after_bind; [by apply doAction_consistent|].
    intros [] s1 E. apply IH. eapply doAction_consistent; [exact Hc|]. by rewrite E.
  - apply after_bind; [by apply applyFilters_consistent|].
    intros v1 s1 E. apply IH. eapply applyFilters_consistent; [exact Hc|]. by rewrite E.
  - rewrite (bind_done _ _ _ _ _ (has_spec _ _ _)). by apply IH.
  - by apply IH.
  - apply IH. intros st tag. apply Hc.
  - pose proof (IHb s Hc) as Hbody.
    destruct (completion (exec b body s)) as [v s1|e s1|]; cbn [completion].
    + apply IHk. by apply Hbody.
    + apply after_bind.
      * apply IHh. by apply Hbody.
      * intros v s2 E. apply IHk. eapply IHh; [by apply Hbody|]. by rewrite E.
    + done.
Qed.

End Callbacks.

Lemma behaviourN_consistent code depth : ∀ cb args (s : State),
  consistent s → after consistent (behaviourN (Value := Value) code depth cb args s).
Proof.
  induction depth as [|depth IH]; intros cb args s Hc; cbn [behaviourN]; [done|].
  by apply exec_consistent.
Qed.

(** Whatever program has run on a fresh registry, callbacks included,
    the arrays agree with the history. *)
Lemma reachable_consistent code depth main vars (s : State) :
  final (completion (exec (behaviourN (Value := Value) code depth) main (initial vars))) = Some s →
  consistent s.
Proof.
  intros H. eapply exec_consistent; [| apply consistent_initial | exact H].
  apply behaviourN_consistent.
Qed.

End Preservation.

(** * Properties of dispatch *)

Section Claims.

Context {Value World : Type}.
Variable behaviour : Callback -> list Value -> @State World -> @Completion Value World Value.

Abbreviation State := (@State World).

(** C2. On a tag that holds a sequence of filters, [applyFilters] is the
    left-to-right fold over [value] of the filters in stable priority
    order, each called with what the previous one returned; the stored
    array is by then the sorted one.  In particular, with [F1] at
    priority 5 and [F2] at priority 10 and nothing else on the tag, in
    either order of registration, [applyFilters(tag, v)] returns
    [F2(F1(v))]. *)
Theorem applyFilters_folds_sorted_filters tag value options (s : State) l :
  slot Filters tag s = JsArray l →
  ∃ order,
    stable_by_priority order l
    ∧ applyFilters behaviour tag value options s
      = fold_filters behaviour options (List.map callback order) value
          (put Filters tag (JsArray order) s)
    ∧ ∀ F1 F2 (f1 f2 : Value -> Value),
        l = [ {| priority := 5; callback := F1 |}; {| priority := 10; callback := F2 |} ]
        ∨ l = [ {| priority := 10; callback := F2 |}; {| priority := 5; callback := F1 |} ] →
        (∀ v s1, behaviour F1 [v; options] s1 = Normal (f1 v) s1) →
        (∀ v s1, behaviour F2 [v; options] s1 = Normal (f2 v) s1) →
        ∃ s', completion (applyFilters behaviour tag value options s)
              = Normal (f2 (f1 value)) s'.
Proof.
  intros E. exists (sort_by by_priority l).
  split; [apply sort_by_priority_stable|].
  split; [by apply applyFilters_array|].
  intros F1 F2 f1 f2 Hl H1 H2. rewrite (applyFilters_array _ _ _ _ _ _ E).
  assert (Hs : sort_by by_priority l
               = [ {| priority := 5; callback := F1 |}; {| priority := 10; callback := F2 |} ])
    by (by destruct Hl as [-> | ->]).
  rewrite Hs. cbn [List.map fold_filters callback]. rewrite H1. cbn [completion calls].
  rewrite H2. cbn. eauto.
Qed.

(** C3 (as amended).  With callbacks that leave the registry alone, a
    dispatch on [tag] changes nothing but the array stored under [tag],
    which it sorts in place: afterwards the array holds the same entries
    in stable ascending priority order, so it is what it was exactly when
    it was already in priority order.  Every other tag, the other table,
    and a tag that holds no array are as before. *)
Theorem dispatch_sorts_in_place tag value options (s s' : State) :
  leaves_registry behaviour →
  (final (completion (doAction behaviour tag options s)) = Some s' →
     (∀ st' tag', (st', tag') ≠ (Actions, tag) →
        table st' (hooks s') !! tag' = table st' (hooks s) !! tag')
     ∧ (∀ l, slot Actions tag s = JsArray l →
          ∃ order, stable_by_priority order l ∧ slot Actions tag s' = JsArray order
                   ∧ (StronglySorted priority_le l → hooks s' = hooks s))
     ∧ ((∀ l, slot Actions tag s ≠ JsArray l) → hooks s' = hooks s))
  ∧ (final (completion (applyFilters behaviour tag value options s)) = Some s' →
     (∀ st' tag', (st', tag') ≠ (Filters, tag) →
        table st' (hooks s') !! tag' = table st' (hooks s) !! tag')
     ∧ (∀ l, slot Filters tag s = JsArray l →
          ∃ order, stable_by_priority order l ∧ slot Filters tag s' = JsArray order
                   ∧ (StronglySorted priority_le l → hooks s' = hooks s))
     ∧ ((∀ l, slot Filters tag s ≠ JsArray l) → hooks s' = hooks s)).
Proof.
  intros Hf.
  assert (Hput : ∀ st l (s1 : State), slot st tag s = JsArray l →
            hooks s1 = hooks (put st tag (JsArray (sort_by by_priority l)) s) →
            (∀ st' tag', (st', tag') ≠ (st, tag) →
               table st' (hooks s1) !! tag' = table st' (hooks s) !! tag')
            ∧ (∀ l0, slot st tag s = JsArray l0 →
                 ∃ order, stable_by_priority order l0 ∧ slot st tag s1 = JsArray order
                          ∧ (StronglySorted priority_le l0 → hooks s1 = hooks s))
            ∧ ((∀ l0, slot st tag s ≠ JsArray l0) → hooks s1 = hooks s)).
  { intros st l s1 E Hs1. split; [|split].
    - intros st' tag' Hne. rewrite Hs1. unfold put; cbn [hooks].
      destruct (decide (st = st')) as [<-|Hst].
      + rewrite table_with_table, lookup_insert_ne; [done | congruence].
      + by rewrite table_with_table_ne.
    - intros l0 E0. rewrite E in E0. injection E0 as <-.
      exists (sort_by by_priority l). split; [apply sort_by_priority_stable|]. split.
      + unfold slot. rewrite Hs1. apply (slot_put_eq st tag _ s).
      + intros Hsorted. rewrite Hs1, sort_by_sorted_id by done. by rewrite put_same.
    - intros Hno. by destruct (Hno l). }
  assert (Hsame : ∀ st (s1 : State), (∀ l, slot st tag s ≠ JsArray l) → hooks s1 = hooks s →
            (∀ st' tag', (st', tag') ≠ (st, tag) →
               table st' (hooks s1) !! tag' = table st' (hooks s) !! tag')
            ∧ (∀ l0, slot st tag s = JsArray l0 →
                 ∃ order, stable_by_priority order l0 ∧ slot st tag s1 = JsArray order
                          ∧ (StronglySorted priority_le l0 → hooks s1 = hooks s))
            ∧ ((∀ l0, slot st tag s ≠ JsArray l0) → hooks s1 = hooks s)).
  { intros st s1 Hno Hs1. split; [|split]; [by rewrite Hs1| |done].
    intros l0 E0. by destruct (Hno l0). }
  split; intros Hfin.
  - destruct (slot Actions tag s) as [|l|n|] eqn:E.
    + rewrite doAction_undefined in Hfin by done. injection Hfin as <-.
      rewrite <- E. by apply Hsame; [rewrite E|].
    + rewrite (doAction_array _ _ _ _ _ E) in Hfin.
      rewrite <- E. apply (Hput Actions l); [done|].
      by eapply run_actions_frame.
    + rewrite doAction_inherited in Hfin by eauto. injection Hfin as <-.
      rewrite <- E. by apply Hsame; [rewrite E|].
    + rewrite doAction_inherited in Hfin by eauto. injection Hfin as <-.
      rewrite <- E. by apply Hsame; [rewrite E|].
  - destruct (slot Filters tag s) as [|l|n|] eqn:E.
    + rewrite applyFilters_undefined in Hfin by done. injection Hfin as <-.
      rewrite <- E. by apply Hsame; [rewrite E|].
    + rewrite (applyFilters_array _ _ _ _ _ _ E) in Hfin.
      rewrite <- E. apply (Hput Filters l); [done|].
      by eapply fold_filters_frame.
    + rewrite applyFilters_inherited in Hfin by eauto. injection Hfin as <-.
      rewrite <- E. by apply Hsame; [rewrite E|].
    + rewrite applyFilters_inherited in Hfin by eauto. injection Hfin as <-.
      rewrite <- E. by apply Hsame; [rewrite E|].
Qed.




(** C6. When the callbacks in priority order are [pre ++ ck :: post],
    those of [pre] return and [ck] throws [e], the dispatch throws that
    same [e], in the state [ck] left, and the calls it has made are those
    of [pre] and [ck]: no callback of [post] is called. *)
Theorem thrown_error_stops_dispatch tag value options (s : State) l order pre ck post e se :
  stable_by_priority order l →
  List.map callback order = pre ++ ck :: post →
  (slot Actions tag s = JsArray l →
   ∀ sk,
     completion (run_actions behaviour options pre (put Actions tag (JsArray order) s))
     = Normal tt sk →
     behaviour ck [options] sk = Throw e se →
     completion (doAction behaviour tag options s) = Throw e se
     ∧ List.map fst (calls (doAction behaviour tag options s)) = pre ++ [ck])
  ∧ (slot Filters tag s = JsArray l →
     ∀ vk sk,
       completion (fold_filters behaviour options pre value (put Filters tag (JsArray order) s))
       = Normal vk sk →
       behaviour ck [vk; options] sk = Throw e se →
       completion (applyFilters behaviour tag value options s) = Throw e se
       ∧ List.map fst (calls (applyFilters behaviour tag value options s)) = pre ++ [ck]).
Proof.
  intros ->%stable_sort_unique Hcbs. split.
  - intros E sk Hpre Hck. rewrite (doAction_array _ _ _ _ _ E), Hcbs.
    by eapply run_actions_throw.
  - intros E vk sk Hpre Hck. rewrite (applyFilters_array _ _ _ _ _ _ E), Hcbs.
    by eapply fold_filters_throw.
Qed.

End Claims.

(** C1. Let any program run on a fresh registry: registrations,
    removals, queries and dispatches on any tags, by the program itself
    or by the callbacks it causes to run.  A [doAction(tag)] that follows
    calls the callbacks of the entries then registered under [tag] in
    non-decreasing priority, entries of one priority in the order they
    were registered: the calls it makes are a prefix of that list, and the
    whole of it when it returns.  On a tag that names no inherited
    property the dispatch is exactly the run of these callbacks one after
    the other, each in the state the previous one left, starting from the
    state with the array sorted: while the callbacks return the next one
    is called, and when all of them return the dispatch returns, having
    called every one.  The callbacks of this dispatch may behave in any
    way ([b]). *)
Theorem doAction_in_registration_order {Value Vars : Type}
    (code : Callback -> list Value -> Prog) (depth : nat)
    (main : Prog) (vars : Vars) (s : @State (World Vars))
    (b : Callback -> list Value -> @State (World Vars) -> @Completion Value (World Vars) Value)
    (tag : string) (options : Value) :
  final (completion (exec (behaviourN code depth) main (initial vars))) = Some s →
  ∃ order,
    stable_by_priority order (registered (world s).2 Actions tag)
    ∧ calls (doAction b tag options s)
        `prefix_of` List.map (fun h => (callback h, [options])) order
    ∧ (∀ s', completion (doAction b tag options s) = Normal tt s' →
         calls (doAction b tag options s)
         = List.map (fun h => (callback h, [options])) order)
    ∧ (ordinary tag →
         doAction b tag options s
         = run_actions b options (List.map callback order)
             (with_sorted Actions tag order s)
         ∧ ∀ s',
             completion (run_actions b options (List.map callback order)
                           (with_sorted Actions tag order s)) = Normal tt s' →
             completion (doAction b tag options s) = Normal tt s'
             ∧ calls (doAction b tag options s)
               = List.map (fun h => (callback h, [options])) order).
Proof.
  intros Hc%reachable_consistent. specialize (Hc Actions tag).
  exists (sort_by by_priority (registered (world s).2 Actions tag)).
  split; [apply sort_by_priority_stable|].
  assert (Hrun : ordinary tag →
            doAction b tag options s
            = run_actions b options
                (List.map callback (sort_by by_priority (registered (world s).2 Actions tag)))
                (with_sorted Actions tag
                   (sort_by by_priority (registered (world s).2 Actions tag)) s)).
  { intros Ho. unfold with_sorted. destruct (slot Actions tag s) as [|l|n|] eqn:E.
    - destruct Hc as [-> _]. by apply doAction_undefined.
    - rewrite <- (same_order_sort _ _ Hc). by apply doAction_array.
    - destruct Hc as [_ Hc]. by discriminate (Hc Ho).
    - destruct Hc as [_ Hc]. by discriminate (Hc Ho). }
  assert (Hcalls :
            calls (doAction b tag options s)
              `prefix_of` List.map (fun h => (callback h, [options]))
                            (sort_by by_priority (registered (world s).2 Actions tag))
            ∧ (∀ s', completion (doAction b tag options s) = Normal tt s' →
                 calls (doAction b tag options s)
                 = List.map (fun h => (callback h, [options]))
                     (sort_by by_priority (registered (world s).2 Actions tag)))).
  { destruct (slot Actions tag s) as [|l|n|] eqn:E.
    - destruct Hc as [-> _]. rewrite doAction_undefined by done. by split; [apply prefix_nil|].
    - rewrite (doAction_array _ _ _ _ _ E), <- (same_order_sort _ _ Hc),
        <- (List.map_map callback (fun cb => (cb, [options]))).
      apply run_actions_calls.
    - rewrite doAction_inherited by eauto. by split; [apply prefix_nil|].
    - rewrite doAction_inherited by eauto. by split; [apply prefix_nil|]. }
  destruct Hcalls as [Hprefix Hall].
  split; [exact Hprefix|]. split; [exact Hall|].
  intros Ho. split; [by apply Hrun|].
  intros s' Hs'. rewrite <- (Hrun Ho) in Hs'. split; [exact Hs'|]. by eapply Hall.
Qed.

(** * The tests of the repository

    [test/hooks.test.js], test by test, with [action = 1] and
    [filter = 1]. *)

Example should_add_and_execute_an_action :
  world (state_after (doAction sets_actionCalled "test_action" 0
                        (then_addAction "test_action" 1%nat None not_called)) not_called)
  = true.
Proof. reflexivity. Qed.

Example should_add_and_apply_a_filter :
  completion (applyFilters appends_world "test_filter" "hello" ""
                (then_addFilter "test_filter" 1%nat None fresh))
  = Normal "hello world" (then_addFilter "test_filter" 1%nat None fresh).
Proof. reflexivity. Qed.

Example should_remove_an_action :
  world (state_after (doAction sets_actionCalled "test_action" 0
                        (then_removeAction "test_action" 1%nat
                           (then_addAction "test_action" 1%nat None not_called))) not_called)
  = false.
Proof. reflexivity. Qed.

Example should_remove_a_filter :
  ∃ s, completion (applyFilters appends_world "test_filter" "hello" ""
                     (then_removeFilter "test_filter" 1%nat
                        (then_addFilter "test_filter" 1%nat None fresh)))
       = Normal "hello" s.
Proof. eexists. reflexivity. Qed.

Example should_check_if_an_action_is_registered :
  let added := then_addAction "test_action" 1%nat None fresh in
  let removed := then_removeAction "test_action" 1%nat added in
  completion (hasAction (Value := Z) "test_action" added) = Normal true added
  ∧ completion (hasAction (Value := Z) "test_action" removed) = Normal false removed.
Proof. split; reflexivity. Qed.

Example should_check_if_a_filter_is_registered :
  let added := then_addFilter "test_filter" 1%nat None fresh in
  let removed := then_removeFilter "test_filter" 1%nat added in
  completion (hasFilter (Value := Z) "test_filter" added) = Normal true added
  ∧ completion (hasFilter (Value := Z) "test_filter" removed) = Normal false removed.
Proof. split; reflexivity. Qed.

(** * Worked examples *)

Example f_then_g_stored :
  slot Actions "x" f_then_g
  = JsArray [ {| priority := 20; callback := 1%nat |}; {| priority := 5; callback := 2%nat |} ].
Proof. reflexivity. Qed.

(** The example of the specification: [doAction('x')] calls [g], then [f]. *)
Example doAction_g_then_f :
  calls (doAction quiet "x" 0 f_then_g) = [ (2%nat, [0]); (1%nat, [0]) ].
Proof. reflexivity. Qed.

(** C3, as stated, fails: after [addAction('x', f, 20)] and
    [addAction('x', g, 5)] the stored array is [f, g]; [doAction('x')]
    with callbacks that do nothing returns, and the stored array is then
    [g, f]. *)
Lemma doAction_reorders_stored_entries :
  leaves_registry quiet
  ∧ ∃ s',
      completion (doAction quiet "x" 0 f_then_g) = Normal tt s'
      ∧ slot Actions "x" f_then_g
        = JsArray [ {| priority := 20; callback := 1%nat |};
                    {| priority := 5; callback := 2%nat |} ]
      ∧ slot Actions "x" s'
        = JsArray [ {| priority := 5; callback := 2%nat |};
                    {| priority := 20; callback := 1%nat |} ]
      ∧ hooks s' ≠ hooks f_then_g.
Proof.
  split.
  - by intros cb args s s' [= <-].
  - eexists. split; [reflexivity|]. split; [reflexivity|]. split; [reflexivity|].
    intros H. apply (f_equal (fun h => Get (actions h) "x")) in H. discriminate H.
Qed.

Lemma dispatch_sorts_in_place_witness :
  leaves_registry quiet
  ∧ ∃ order,
      stable_by_priority order
        [ {| priority := 20; callback := 1%nat |}; {| priority := 5; callback := 2%nat |} ]
      ∧ slot Actions "x" (state_after (doAction quiet "x" 0 f_then_g) f_then_g) = JsArray order.
Proof.
  assert (Hq : leaves_registry quiet) by (by intros cb args s s' [= <-]).
  split; [exact Hq|].
  destruct (dispatch_sorts_in_place quiet "x" 0 0 f_then_g
              (state_after (doAction quiet "x" 0 f_then_g) f_then_g) Hq) as [Hd _].
  destruct (Hd eq_refl) as (_ & Harr & _).
  destruct (Harr _ f_then_g_stored) as (order & Hs & Hslot & _).
  exists order. by split.
Defined.

(** [applyFilters('c', 3)] is [F2(F1(3))]: 7. *)
Lemma applyFilters_folds_sorted_filters_witness :
  slot Filters "c" F2_then_F1
  = JsArray [ {| priority := 10; callback := 2%nat |}; {| priority := 5; callback := 1%nat |} ]
  ∧ ∃ s', completion (applyFilters double_and_inc "c" 3 0 F2_then_F1) = Normal 7 s'.
Proof.
  split; [reflexivity|].
  destruct (applyFilters_folds_sorted_filters double_and_inc "c" 3 0 F2_then_F1 _ eq_refl)
    as (order & _ & _ & H).
  apply (H 1%nat 2%nat (fun v => v * 2) (fun v => v + 1)); [by right | done | done].
Defined.


(** [doAction('x')] calls [c1] and [c2], throws the [99] of [c2], and
    does not call [c3]. *)
Lemma thrown_error_stops_dispatch_witness :
  slot Actions "x" three_actions
  = JsArray [ {| priority := 30; callback := 3%nat |}; {| priority := 20; callback := 2%nat |};
              {| priority := 10; callback := 1%nat |} ]
  ∧ ∃ se,
      completion (doAction second_throws "x" 0 three_actions) = Throw (Raised 99) se
      ∧ List.map fst (calls (doAction second_throws "x" 0 three_actions)) = [1%nat; 2%nat].
Proof.
  split; [reflexivity|].
  pose (l := [ {| priority := 30; callback := 3%nat |}; {| priority := 20; callback := 2%nat |};
               {| priority := 10; callback := 1%nat |} ]).
  destruct (thrown_error_stops_dispatch second_throws "x" 0 0 three_actions
              l (sort_by by_priority l) [1%nat] 2%nat [3%nat] (Raised 99)
              (put Actions "x"
                 (JsArray [ {| priority := 10; callback := 1%nat |};
                            {| priority := 20; callback := 2%nat |};
                            {| priority := 30; callback := 3%nat |} ]) three_actions)
              (sort_by_priority_stable _) eq_refl) as [H _].
  eexists. by apply (H eq_refl _ eq_refl eq_refl).
Defined.

(** After the program the array under ['x'] is [g, f, h]: sorted by the
    dispatch, then extended by [f].  The order of registration is
    [f, g, h], and the next [doAction('x')] calls [g], [h], [f] and
    returns. *)
Lemma doAction_in_registration_order_witness :
  ∃ s,
    final (completion (exec (behaviourN f_adds_h 2) register_and_dispatch (initial tt))) = Some s
    ∧ slot Actions "x" s
      = JsArray [ {| priority := 5; callback := 2%nat |}; {| priority := 20; callback := 1%nat |};
                  {| priority := 5; callback := 3%nat |} ]
    ∧ registered (world s).2 Actions "x"
      = [ {| priority := 20; callback := 1%nat |}; {| priority := 5; callback := 2%nat |};
          {| priority := 5; callback := 3%nat |} ]
    ∧ ordinary "x"
    ∧ calls (doAction (behaviourN f_adds_h 2) "x" 0 s)
      = [ (2%nat, [0]); (3%nat, [0]); (1%nat, [0]) ]
    ∧ ∃ s', completion (doAction (behaviourN f_adds_h 2) "x" 0 s) = Normal tt s'.
Proof.
  eexists. split; [vm_compute; reflexivity|].
  split; [reflexivity|]. split; [reflexivity|].
  assert (Hx : ordinary "x") by reflexivity.
  split; [exact Hx|].
  match goal with
  | |- calls (doAction _ _ _ ?s) = _ ∧ _ =>
      destruct (doAction_in_registration_order f_adds_h 2 register_and_dispatch tt s
                  (behaviourN f_adds_h 2) "x" 0 eq_refl)
        as (order & Hs%stable_sort_unique & _ & _ & Hrun)
  end.
  subst order. destruct (Hrun Hx) as [_ Hret].
  destruct (Hret _ eq_refl) as [Hn Hc].
  split; [exact Hc | eexists; exact Hn].
Defined.

(** * Tags that read as a sequence or as nothing

    The methods do what their documentation says wherever [o[tag]] is an
    array of entries or [undefined].  Every tag that names no inherited
    property is such a tag, in every state a program can reach. *)

Section Plain.

Context {Value World : Type}.
Variable behaviour : Callback -> list Value -> @State World -> @Completion Value World Value.

Abbreviation State := (@State World).

(** X15. [addAction] and [addFilter] append one entry, whatever is there
    already; the priority is 10 when none is given. *)
Lemma register_plain st tag cb p (s : State) :
  plain st tag s →
  register (Value := Value) st tag cb p s
  = done_ tt (put st tag (JsArray (entries st tag s ++ [entry cb p])) s)
  ∧ priority (entry cb None) = 10.
Proof.
  unfold entries. intros [E|[l E]]; rewrite E; split; try done.
  - by apply register_undefined.
  - by apply register_array.
Qed.

(** X16. [removeAction] and [removeFilter] drop every entry of the
    callback, keep the others in order, and leave a tag with no sequence
    alone. *)
Lemma unregister_plain st tag cb (s : State) :
  plain st tag s →
  ∃ s', unregister (Value := Value) st tag cb s = done_ tt s'
        ∧ entries st tag s' = without cb (entries st tag s)
        ∧ world s' = world s
        ∧ (∀ st' tag', (st', tag') ≠ (st, tag) → slot st' tag' s' = slot st' tag' s)
        ∧ (slot st tag s = JsUndefined → s' = s).
Proof.
  unfold entries. intros [E|[l E]].
  - exists s. rewrite unregister_undefined, E by done. done.
  - exists (put st tag (JsArray (without cb l)) s).
    rewrite (unregister_array _ _ _ _ _ E), slot_put_eq, E.
    repeat split; try done.
    intros st' tag' Hne. rewrite slot_put_cases. by rewrite decide_False.
Qed.

(** X17. [hasAction] and [hasFilter] tell whether the tag has an entry. *)
Lemma has_plain st tag (s : State) :
  plain st tag s →
  has (Value := Value) st tag s = done_ (bool_decide (entries st tag s ≠ [])) s.
Proof.
  unfold entries. rewrite has_spec. intros [E|[l E]]; rewrite E; [done|].
  by destruct l.
Qed.

(** X18. With no entry under the tag, absent or empty alike, [doAction]
    does nothing, [applyFilters] returns [value] and the queries say no. *)
Lemma empty_plain tag value options (s : State) :
  (plain Actions tag s → entries Actions tag s = [] →
     doAction behaviour tag options s = done_ tt s
     ∧ hasAction (Value := Value) tag s = done_ false s)
  ∧ (plain Filters tag s → entries Filters tag s = [] →
     applyFilters behaviour tag value options s = done_ value s
     ∧ hasFilter (Value := Value) tag s = done_ false s).
Proof.
  unfold entries. split; intros [E|[l E]]; rewrite E; intros Hl; subst.
  - split; [by apply doAction_undefined|].
    change (hasAction tag s) with (has (Value := Value) Actions tag s).
    by rewrite has_spec, E.
  - split.
    + rewrite (doAction_array _ _ _ _ _ E). simpl. by rewrite put_same.
    + change (hasAction tag s) with (has (Value := Value) Actions tag s).
      by rewrite has_spec, E.
  - split; [by apply applyFilters_undefined|].
    change (hasFilter tag s) with (has (Value := Value) Filters tag s).
    by rewrite has_spec, E.
  - split.
    + rewrite (applyFilters_array _ _ _ _ _ _ E). simpl. by rewrite put_same.
    + change (hasFilter tag s) with (has (Value := Value) Filters tag s).
      by rewrite has_spec, E.
Qed.

End Plain.

(** X19. In a state reached by a program, every tag that names no
    inherited property is plain. *)
Lemma reachable_plain {Value Vars : Type} (code : Callback -> list Value -> Prog)
    depth main (vars : Vars) (s : @State (World Vars)) st tag :
  final (completion (exec (behaviourN code depth) main (initial vars))) = Some s →
  ordinary tag → plain st tag s.
Proof.
  intros Hc%reachable_consistent Ho. specialize (Hc st tag). unfold plain.
  destruct (slot st tag s) as [|l|n|]; [by left | right; eauto | |];
    destruct Hc as [_ Hc]; by discriminate (Hc Ho).
Qed.

(** * Tags that name an inherited property

    [this.actions] and [this.filters] are created as [{}], so a tag such
    as ['toString'] or ['hasOwnProperty'] reads as the function inherited
    from [Object.prototype] although nothing was registered under it.
    The guards [!this.actions[tag]] and [this.actions[tag] || []] then
    take that function for the tag's array. *)

(** What is inherited is a function or [Object.prototype] itself. *)
Lemma inherited_slot {World} st tag (s : @State World) :
  ¬ ordinary tag → table st (hooks s) !! tag = None →
  slot st tag s = JsObject ∨ ∃ n, slot st tag s = JsBuiltin n.
Proof.
  unfold ordinary, slot, Get. intros Ho ->.
  destruct (Object_prototype !! tag) as [v|] eqn:E; [|done]. simpl.
  apply elem_of_list_to_map_2 in E.
  repeat (apply elem_of_cons in E as [[= _ ->]|E]; [eauto|]).
  by apply elem_of_nil in E.
Qed.

(** X20. On every tag that names an inherited property, as long as
    nothing is stored under it, registration, removal and dispatch throw
    a [TypeError]. *)
Lemma inherited_tag_throws {Value World}
    (behaviour : Callback -> list Value -> @State World -> @Completion Value World Value)
    st tag (s : @State World) cb p value options :
  ¬ ordinary tag → table st (hooks s) !! tag = None →
  (∃ s', register st tag cb p s = failed (Value := Value) "push is not a function" s')
  ∧ unregister st tag cb s = failed (Value := Value) "filter is not a function" s
  ∧ (st = Actions → doAction behaviour tag options s = failed "sort is not a function" s)
  ∧ (st = Filters →
     applyFilters behaviour tag value options s = failed "sort is not a function" s).
Proof.
  intros Ho Hn. pose proof (inherited_slot st tag s Ho Hn) as Hs.
  split; [|split; [|split]].
  - destruct (register_inherited (Value := Value) st tag cb p s Hs) as (s' & Hr & _). eauto.
  - by apply unregister_inherited.
  - intros ->. by apply doAction_inherited.
  - intros ->. by apply applyFilters_inherited.
Qed.

(** C9.  [addAction('toString', cb)] and [addFilter('toString', cb)] on a
    fresh registry throw a [TypeError] and register nothing. *)
Theorem addAction_inherited_tag_throws (cb : Callback) (p : option Z) :
  (∃ s', completion (addAction (Value := Z) "toString" cb p fresh)
         = Throw (TypeError "push is not a function") s'
         ∧ slot Actions "toString" s' = JsBuiltin 0)
  ∧ (∃ s', completion (addFilter (Value := Z) "toString" cb p fresh)
           = Throw (TypeError "push is not a function") s'
           ∧ slot Filters "toString" s' = JsBuiltin 0).
Proof.
  split.
  - destruct (register_inherited (Value := Z) Actions "toString" cb p fresh)
      as (s' & Hr & _ & Hs); [right; by exists 0|].
    exists s'. simpl in Hr. rewrite Hr, Hs. done.
  - destruct (register_inherited (Value := Z) Filters "toString" cb p fresh)
      as (s' & Hr & _ & Hs); [right; by exists 0|].
    exists s'. simpl in Hr. rewrite Hr, Hs. done.
Qed.

(** C10.  On a fresh registry [hasAction('hasOwnProperty')] and
    [hasFilter('constructor')] return [true]: the inherited functions
    have [length] 1. *)
Theorem hasAction_inherited_tag_true :
  completion (hasAction (Value := Z) "hasOwnProperty" fresh) = Normal true fresh
  ∧ completion (hasFilter (Value := Z) "constructor" fresh) = Normal true fresh.
Proof. split; reflexivity. Qed.

(** C8.  On a fresh registry [applyFilters('toString', v)] and
    [doAction('toString')] throw a [TypeError], whatever the callbacks. *)
Theorem applyFilters_inherited_tag_throws
    (behaviour : Callback -> list Z -> @State unit -> @Completion Z unit Z) (value options : Z) :
  completion (applyFilters behaviour "toString" value options fresh)
  = Throw (TypeError "sort is not a function") fresh
  ∧ completion (doAction behaviour "toString" options fresh)
    = Throw (TypeError "sort is not a function") fresh.
Proof.
  split.
  - rewrite applyFilters_inherited; [done | right; by exists 0].
  - rewrite doAction_inherited; [done | right; by exists 0].
Qed.

(** C7.  The tag ['toString'] absent from [this.actions] and the same tag
    present with an empty array are not treated alike: [doAction] throws
    on the first and returns on the second.  Likewise [hasAction] on
    ['hasOwnProperty'] is [true] when the tag is absent and [false] when
    it holds an empty array. *)
Theorem absent_inherited_tag_unlike_empty
    (behaviour : Callback -> list Z -> @State unit -> @Completion Z unit Z) (options : Z) :
  actions (hooks fresh) !! "toString" = None
  ∧ completion (doAction behaviour "toString" options fresh)
    = Throw (TypeError "sort is not a function") fresh
  ∧ actions (hooks toString_empty) !! "toString" = Some (JsArray [])
  ∧ completion (doAction behaviour "toString" options toString_empty)
    = Normal tt toString_empty
  ∧ completion (hasAction (Value := Z) "hasOwnProperty" fresh) = Normal true fresh
  ∧ completion (hasAction (Value := Z) "hasOwnProperty"
                  (put Actions "hasOwnProperty" (JsArray []) fresh))
    = Normal false (put Actions "hasOwnProperty" (JsArray []) fresh).
Proof.
  split; [reflexivity|]. split.
  { rewrite doAction_inherited; [done | right; by exists 0]. }
  split; [reflexivity|]. split.
  { erewrite doAction_array by reflexivity. reflexivity. }
  split; reflexivity.
Qed.

(** C5.  [removeAction('toString', cb)] and [removeFilter('toString', cb)]
    on a fresh registry, where the tag has no sequence, throw a
    [TypeError]. *)
Theorem removeAction_inherited_tag_throws (cb : Callback) :
  completion (removeAction (Value := Z) "toString" cb fresh)
  = Throw (TypeError "filter is not a function") fresh
  ∧ completion (removeFilter (Value := Z) "toString" cb fresh)
    = Throw (TypeError "filter is not a function") fresh.
Proof.
  split.
  - change (removeAction "toString" cb fresh)
      with (unregister (Value := Z) Actions "toString" cb fresh).
    rewrite unregister_inherited; [done | right; by exists 0].
  - change (removeFilter "toString" cb fresh)
      with (unregister (Value := Z) Filters "toString" cb fresh).
    rewrite unregister_inherited; [done | right; by exists 0].
Qed.

(** * Further properties of the methods *)

Section Further.

Context {Value World : Type}.
Variable behaviour : Callback -> list Value -> @State World -> @Completion Value World Value.

Abbreviation State := (@State World).
Abbreviation register := (@register Value World).
Abbreviation unregister := (@unregister Value World).
Abbreviation has := (@has Value World).
Abbreviation done_ := (@done_ Value World).

Implicit Types s : State.

Lemma completion_done {A} (a : A) s : completion (done_ a s) = Normal a s.
Proof. reflexivity. Qed.

Lemma state_after_done {A} (a : A) s s0 : state_after (done_ a s) s0 = s.
Proof. reflexivity. Qed.

Lemma state_after_failed {A} msg s s0 : state_after (failed (Value := Value) (A := A) msg s) s0 = s.
Proof. reflexivity. Qed.

Lemma entries_put st tag l s : entries st tag (put st tag (JsArray l) s) = l.
Proof. unfold entries. by rewrite slot_put_eq. Qed.

Lemma without_idem cb l : without cb (without cb l) = without cb l.
Proof.
  unfold without. induction l as [|h l IH]; [done|]. simpl.
  destruct (negb (bool_decide (callback h = cb))) eqn:E; simpl; rewrite ?E, IH; done.
Qed.

Lemma without_not_In cb l : ¬ In cb (List.map callback (without cb l)).
Proof.
  unfold without. rewrite in_map_iff. intros (h & Hh & Hin).
  apply filter_In in Hin as [_ Hin]. apply negb_true_iff, bool_decide_eq_false in Hin. done.
Qed.

Lemma without_absent cb l : ¬ In cb (List.map callback l) → without cb l = l.
Proof.
  unfold without. induction l as [|h l IH]; [done|]. simpl. intros Hn.
  rewrite bool_decide_eq_false_2 by (intros E; apply Hn; by left). simpl.
  rewrite IH; [done|]. intros Hin. apply Hn. by right.
Qed.

Lemma without_app cb l1 l2 : without cb (l1 ++ l2) = without cb l1 ++ without cb l2.
Proof. unfold without. apply List.filter_app. Qed.

(** The state after a removal, whether it returned or threw. *)
Lemma state_after_unregister st tag cb s :
  state_after (unregister st tag cb s) s
  = match slot st tag s with
    | JsArray l => put st tag (JsArray (without cb l)) s
    | _ => s
    end.
Proof.
  destruct (slot st tag s) as [|l|n|] eqn:E.
  - by rewrite unregister_undefined.
  - by rewrite (unregister_array _ _ _ _ _ E).
  - rewrite unregister_inherited; [done | right; eauto].
  - rewrite unregister_inherited; [done | by left].
Qed.

Lemma entries_after_unregister st tag cb s :
  entries st tag (state_after (unregister st tag cb s) s) = without cb (entries st tag s).
Proof.
  rewrite state_after_unregister. unfold entries at 2.
  destruct (slot st tag s) as [|l|n|] eqn:E; unfold entries; rewrite ?E, ?slot_put_eq; done.
Qed.

(** Whatever the state and the callbacks, a dispatch calls callbacks of
    the entries stored under the tag only. *)
Lemma doAction_calls_stored tag options s c :
  In c (List.map fst (calls (doAction behaviour tag options s))) →
  In c (List.map callback (entries Actions tag s)).
Proof.
  unfold entries. destruct (slot Actions tag s) as [|l|n|] eqn:E.
  - by rewrite doAction_undefined.
  - rewrite (doAction_array _ _ _ _ _ E). intros Hin.
    destruct (run_actions_calls behaviour options (List.map callback (sort_by by_priority l))
                (put Actions tag (JsArray (sort_by by_priority l)) s)) as [[k Hk] _].
    apply (f_equal (List.map fst)) in Hk. rewrite List.map_app, List.map_map in Hk.
    simpl in Hk. rewrite List.map_id in Hk.
    eapply Permutation_in; [apply Permutation_map, sort_by_Permutation|].
    rewrite Hk. apply in_or_app. by left.
  - rewrite doAction_inherited by eauto. done.
  - rewrite doAction_inherited by eauto. done.
Qed.

Lemma applyFilters_calls_stored tag value options s c :
  In c (List.map fst (calls (applyFilters behaviour tag value options s))) →
  In c (List.map callback (entries Filters tag s)).
Proof.
  unfold entries. destruct (slot Filters tag s) as [|l|n|] eqn:E.
  - by rewrite applyFilters_undefined.
  - rewrite (applyFilters_array _ _ _ _ _ _ E). intros Hin.
    destruct (fold_filters_calls behaviour options (List.map callback (sort_by by_priority l))
                value (put Filters tag (JsArray (sort_by by_priority l)) s)) as [[k Hk] _].
    eapply Permutation_in; [apply Permutation_map, sort_by_Permutation|].
    rewrite Hk. apply in_or_app. by left.
  - rewrite applyFilters_inherited by eauto. done.
  - rewrite applyFilters_inherited by eauto. done.
Qed.

(** X1. After [removeAction(tag, cb)], in whatever state it was called
    and whether it returned or threw, a [doAction(tag)] never calls [cb],
    whatever the callbacks do; likewise [applyFilters] after
    [removeFilter]. *)
Theorem removed_callback_is_not_called tag cb value options s args :
  ¬ In (cb, args)
      (calls (doAction behaviour tag options
                (state_after (removeAction (Value := Value) tag cb s) s)))
  ∧ ¬ In (cb, args)
        (calls (applyFilters behaviour tag value options
                  (state_after (removeFilter (Value := Value) tag cb s) s))).
Proof.
  split; intros Hin; apply (in_map fst) in Hin; simpl in Hin.
  - apply doAction_calls_stored in Hin.
    change (removeAction tag cb s) with (unregister Actions tag cb s) in Hin.
    rewrite entries_after_unregister in Hin. by apply without_not_In in Hin.
  - apply applyFilters_calls_stored in Hin.
    change (removeFilter tag cb s) with (unregister Filters tag cb s) in Hin.
    rewrite entries_after_unregister in Hin. by apply without_not_In in Hin.
Qed.

(** X2. Removing a callback twice is removing it once: the second
    [removeAction(tag, cb)] (or [removeFilter]) leaves the state exactly
    as the first left it, in every state. *)
Theorem removal_is_idempotent st tag cb s :
  let once := state_after (unregister st tag cb s) s in
  state_after (unregister st tag cb once) once = once.
Proof.
  cbn zeta. rewrite (state_after_unregister st tag cb s).
  destruct (slot st tag s) as [|l|n|] eqn:E.
  - by rewrite state_after_unregister, E.
  - by rewrite state_after_unregister, slot_put_eq, put_put, without_idem.
  - by rewrite state_after_unregister, E.
  - by rewrite state_after_unregister, E.
Qed.

Lemma put_comm st1 tag1 v1 st2 tag2 v2 s :
  (st1, tag1) ≠ (st2, tag2) →
  put st1 tag1 v1 (put st2 tag2 v2 s) = put st2 tag2 v2 (put st1 tag1 v1 s).
Proof.
  intros Hne. unfold put. destruct s as [[a f] w]. f_equal.
  destruct st1, st2; simpl; try done; f_equal; apply insert_insert_ne; congruence.
Qed.

Lemma without_entry cb p : without cb [entry cb p] = [].
Proof. unfold without. simpl. by rewrite bool_decide_eq_true_2. Qed.

(** The state after a registration on a tag that reads as an array or
    as nothing. *)
Lemma state_after_register st tag cb p s :
  plain st tag s →
  state_after (register st tag cb p s) s
  = put st tag (JsArray (entries st tag s ++ [entry cb p])) s.
Proof.
  unfold entries. intros [E|[l E]]; rewrite E.
  - by rewrite register_undefined.
  - by rewrite (register_array _ _ _ _ _ _ E).
Qed.

(** X3. Registering a callback that is not yet registered under the tag
    and removing it again gives back the tag's sequence; nothing else
    changes, and when the tag already held an array the whole state is
    as before. *)
Theorem add_then_remove_restores st tag cb p s :
  plain st tag s →
  ¬ In cb (List.map callback (entries st tag s)) →
  let added := state_after (register st tag cb p s) s in
  let removed := state_after (unregister st tag cb added) added in
  entries st tag removed = entries st tag s
  ∧ world removed = world s
  ∧ (∀ st' tag', (st', tag') ≠ (st, tag) → slot st' tag' removed = slot st' tag' s)
  ∧ (∀ l, slot st tag s = JsArray l → removed = s).
Proof.
  intros Hp Hn. cbn zeta. rewrite (state_after_register _ _ _ _ _ Hp).
  rewrite state_after_unregister, slot_put_eq, put_put.
  rewrite without_app, without_entry, (without_absent _ _ Hn), app_nil_r.
  split; [apply entries_put|]. split; [done|]. split.
  - intros st' tag' Hne. rewrite slot_put_cases. by rewrite decide_False.
  - intros l E. unfold entries. rewrite E. by apply put_same.
Qed.

(** X4. When a dispatch returns, it has called the callback of every
    entry stored under the tag once per entry, each action with
    [options]: an entry registered twice is called twice. *)
Theorem dispatch_calls_each_entry_once tag value options s :
  (∀ l s', slot Actions tag s = JsArray l →
     completion (doAction behaviour tag options s) = Normal tt s' →
     calls (doAction behaviour tag options s)
     ≡ₚ List.map (fun h => (callback h, [options])) l)
  ∧ (∀ l v' s', slot Filters tag s = JsArray l →
     completion (applyFilters behaviour tag value options s) = Normal v' s' →
     List.map fst (calls (applyFilters behaviour tag value options s))
     ≡ₚ List.map callback l).
Proof.
  split.
  - intros l s' E. rewrite (doAction_array _ _ _ _ _ E). intros Hc.
    destruct (run_actions_calls behaviour options (List.map callback (sort_by by_priority l))
                (put Actions tag (JsArray (sort_by by_priority l)) s)) as [_ He].
    rewrite (He _ Hc), List.map_map. apply Permutation_map, sort_by_Permutation.
  - intros l v' s' E. rewrite (applyFilters_array _ _ _ _ _ _ E). intros Hc.
    destruct (fold_filters_calls behaviour options (List.map callback (sort_by by_priority l))
                value (put Filters tag (JsArray (sort_by by_priority l)) s)) as [_ He].
    rewrite (He _ _ Hc). apply Permutation_map, sort_by_Permutation.
Qed.

Lemma sort_by_nil_inv l : sort_by by_priority l = [] → l = [].
Proof.
  intros H. apply Permutation_nil_r. rewrite <- H. symmetry. apply sort_by_Permutation.
Qed.

Lemma run_actions_calls_nil options cbs s :
  calls (run_actions behaviour options cbs s) = [] ↔ cbs = [].
Proof.
  destruct cbs as [|cb rest]; [done|]. simpl.
  destruct (behaviour cb [options] s); simpl; split; done.
Qed.

Lemma fold_filters_calls_nil options cbs value s :
  calls (fold_filters behaviour options cbs value s) = [] ↔ cbs = [].
Proof.
  destruct cbs as [|cb rest]; [done|]. simpl.
  destruct (behaviour cb [value; options] s); simpl; split; done.
Qed.

Lemma sorted_callbacks_nil l :
  List.map callback (sort_by by_priority l) = [] ↔ l = [].
Proof.
  split; [|by intros ->]. intros H. apply map_eq_nil in H. by apply sort_by_nil_inv.
Qed.

Lemma has_array_true l s :
  Normal (truthy (JsArray l) && length_gt_0 (JsArray l)) s = Normal (Value := Value) true s
  ↔ l ≠ [].
Proof. destruct l; simpl; split; done. Qed.

(** X5. On a tag that reads as an array or as nothing, [hasAction(tag)]
    is [true] exactly when [doAction(tag)] calls at least one callback,
    and [hasFilter(tag)] exactly when [applyFilters(tag, value)] does. *)
Theorem has_iff_dispatch_calls tag value options s :
  (plain Actions tag s →
     completion (hasAction (Value := Value) tag s) = Normal true s
     ↔ calls (doAction behaviour tag options s) ≠ [])
  ∧ (plain Filters tag s →
     completion (hasFilter (Value := Value) tag s) = Normal true s
     ↔ calls (applyFilters behaviour tag value options s) ≠ []).
Proof.
  split; intros [E|[l E]].
  - change (hasAction tag s) with (has Actions tag s).
    rewrite has_spec, E, doAction_undefined by done. simpl. split; [by intros [=] | done].
  - change (hasAction tag s) with (has Actions tag s).
    rewrite has_spec, E, (doAction_array _ _ _ _ _ E). rewrite completion_done.
    by rewrite has_array_true, run_actions_calls_nil, sorted_callbacks_nil.
  - change (hasFilter tag s) with (has Filters tag s).
    rewrite has_spec, E, applyFilters_undefined by done. simpl. split; [by intros [=] | done].
  - change (hasFilter tag s) with (has Filters tag s).
    rewrite has_spec, E, (applyFilters_array _ _ _ _ _ _ E). rewrite completion_done.
    by rewrite has_array_true, fold_filters_calls_nil, sorted_callbacks_nil.
Qed.

(** X6. Registrations under two different tags, or one of an action and
    one of a filter, can be made in either order: the final state is the
    same. *)
Theorem registrations_commute st1 tag1 cb1 p1 st2 tag2 cb2 p2 s :
  (st1, tag1) ≠ (st2, tag2) →
  plain st1 tag1 s → plain st2 tag2 s →
  let first1 := state_after (register st1 tag1 cb1 p1 s) s in
  let first2 := state_after (register st2 tag2 cb2 p2 s) s in
  state_after (register st2 tag2 cb2 p2 first1) first1
  = state_after (register st1 tag1 cb1 p1 first2) first2.
Proof.
  intros Hne H1 H2. cbn zeta.
  rewrite (state_after_register _ _ _ _ _ H1), (state_after_register _ _ _ _ _ H2).
  assert (Hs1 : ∀ v, slot st1 tag1 (put st2 tag2 v s) = slot st1 tag1 s).
  { intros v. rewrite slot_put_cases. by rewrite decide_False. }
  assert (Hs2 : ∀ v, slot st2 tag2 (put st1 tag1 v s) = slot st2 tag2 s).
  { intros v. rewrite slot_put_cases. rewrite decide_False; [done | congruence]. }
  rewrite !state_after_register.
  - unfold entries. rewrite Hs1, Hs2. apply put_comm. congruence.
  - unfold plain. by rewrite Hs1.
  - unfold plain. by rewrite Hs2.
Qed.

Lemma slot_hooks st tag s s' : hooks s' = hooks s → slot st tag s' = slot st tag s.
Proof. unfold slot. by intros ->. Qed.

(** X7. With callbacks that leave the registry alone, a second
    [doAction(tag)] (or [applyFilters]) finds the array already in
    priority order and stores nothing new: the registry after it is the
    registry after the first. *)
Theorem second_dispatch_keeps_store tag value options options' s s1 s2 :
  leaves_registry behaviour →
  (final (completion (doAction behaviour tag options s)) = Some s1 →
   final (completion (doAction behaviour tag options' s1)) = Some s2 →
   hooks s2 = hooks s1)
  ∧ (final (completion (applyFilters behaviour tag value options s)) = Some s1 →
     final (completion (applyFilters behaviour tag value options' s1)) = Some s2 →
     hooks s2 = hooks s1).
Proof.
  intros Hf. split; intros H1 H2.
  - destruct (slot Actions tag s) as [|l|n|] eqn:E.
    + rewrite doAction_undefined in H1 by done. injection H1 as <-.
      rewrite doAction_undefined in H2 by done. by injection H2 as <-.
    + rewrite (doAction_array _ _ _ _ _ E) in H1.
      apply (run_actions_frame _ _ _ _ _ Hf) in H1.
      assert (E1 : slot Actions tag s1 = JsArray (sort_by by_priority l)).
      { rewrite (slot_hooks _ _ _ _ H1). apply slot_put_eq. }
      rewrite (doAction_array _ _ _ _ _ E1), sort_by_priority_idem in H2.
      apply (run_actions_frame _ _ _ _ _ Hf) in H2. by rewrite H2, put_same.
    + rewrite doAction_inherited in H1 by eauto. injection H1 as <-.
      rewrite doAction_inherited in H2 by eauto. by injection H2 as <-.
    + rewrite doAction_inherited in H1 by eauto. injection H1 as <-.
      rewrite doAction_inherited in H2 by eauto. by injection H2 as <-.
  - destruct (slot Filters tag s) as [|l|n|] eqn:E.
    + rewrite applyFilters_undefined in H1 by done. injection H1 as <-.
      rewrite applyFilters_undefined in H2 by done. by injection H2 as <-.
    + rewrite (applyFilters_array _ _ _ _ _ _ E) in H1.
      apply (fold_filters_frame _ _ _ _ _ _ Hf) in H1.
      assert (E1 : slot Filters tag s1 = JsArray (sort_by by_priority l)).
      { rewrite (slot_hooks _ _ _ _ H1). apply slot_put_eq. }
      rewrite (applyFilters_array _ _ _ _ _ _ E1), sort_by_priority_idem in H2.
      apply (fold_filters_frame _ _ _ _ _ _ Hf) in H2. by rewrite H2, put_same.
    + rewrite applyFilters_inherited in H1 by eauto. injection H1 as <-.
      rewrite applyFilters_inherited in H2 by eauto. by injection H2 as <-.
    + rewrite applyFilters_inherited in H1 by eauto. injection H1 as <-.
      rewrite applyFilters_inherited in H2 by eauto. by injection H2 as <-.
Qed.

(** X8. A registration or a removal that throws has changed nothing
    that can be read: the error is the [TypeError] of the missing array
    method, every tag reads as before and the rest of the state is as
    before. *)
Theorem failed_call_changes_nothing st tag cb p s e s' :
  (completion (register st tag cb p s) = Throw e s' →
   e = TypeError "push is not a function"
   ∧ world s' = world s
   ∧ ∀ st' tag', slot st' tag' s' = slot st' tag' s)
  ∧ (completion (unregister st tag cb s) = Throw e s' →
     e = TypeError "filter is not a function" ∧ s' = s).
Proof.
  split; intros H.
  - destruct (slot st tag s) as [|l|n|] eqn:E.
    + by rewrite register_undefined in H.
    + by rewrite (register_array _ _ _ _ _ _ E) in H.
    + destruct (register_inherited (Value := Value) st tag cb p s) as (s1 & Hr & Hw & Hs);
        [right; eauto|].
      fold register in Hr. rewrite Hr in H. by injection H as <- <-.
    + destruct (register_inherited (Value := Value) st tag cb p s) as (s1 & Hr & Hw & Hs);
        [by left|].
      fold register in Hr. rewrite Hr in H. by injection H as <- <-.
  - destruct (slot st tag s) as [|l|n|] eqn:E.
    + by rewrite unregister_undefined in H.
    + by rewrite (unregister_array _ _ _ _ _ E) in H.
    + rewrite unregister_inherited in H by eauto. by injection H as <- <-.
    + rewrite unregister_inherited in H by eauto. by injection H as <- <-.
Qed.

(** X9. [hasAction] and [hasFilter] never throw, call no callback and
    leave the state as it is, on every tag and in every state. *)
Theorem has_never_throws st tag s :
  ∃ r : bool, has st tag s = done_ r s.
Proof. eexists. apply has_spec. Qed.

Lemma fold_filters_pure f options cbs value s :
  pure_filters behaviour f →
  completion (fold_filters behaviour options cbs value s)
  = Normal (fold_left (fun acc cb => f cb acc options) cbs value) s.
Proof.
  intros Hp. revert value. induction cbs as [|cb rest IH]; intros value; [done|].
  simpl. rewrite Hp. simpl. apply IH.
Qed.

Lemma sort_by_append_last l e :
  Forall (fun h => priority h <= priority e) l →
  sort_by by_priority (l ++ [e]) = sort_by by_priority l ++ [e].
Proof.
  intros Hall. symmetry. apply stable_sort_unique. split; [|split].
  - by rewrite sort_by_Permutation.
  - apply StronglySorted_app_2; [|apply sort_by_priority_sorted|repeat constructor].
    intros h1 h2 H1 ->%list_elem_of_singleton.
    rewrite sort_by_Permutation in H1. rewrite Forall_forall in Hall. by apply Hall.
  - intros q. by rewrite !List.filter_app, sort_by_priority_filter.
Qed.

Lemma sort_by_append_first l e :
  Forall (fun h => priority e < priority h) l →
  sort_by by_priority (l ++ [e]) = e :: sort_by by_priority l.
Proof.
  intros Hall. symmetry. apply stable_sort_unique. split; [|split].
  - rewrite sort_by_Permutation. by rewrite Permutation_app_comm.
  - constructor; [apply sort_by_priority_sorted|].
    rewrite sort_by_Permutation. eapply Forall_impl; [exact Hall|].
    unfold priority_le. simpl. intros. lia.
  - intros q. rewrite List.filter_app. cbn [List.filter].
    rewrite sort_by_priority_filter.
    destruct (same_priority q e) eqn:Hq; [|by rewrite app_nil_r].
    apply bool_decide_eq_true in Hq.
    assert (Hnone : List.filter (same_priority q) l = []).
    { clear -Hall Hq. induction Hall as [|h l Hh _ IH]; [done|]. simpl.
      unfold same_priority at 1. rewrite bool_decide_eq_false_2 by lia. exact IH. }
    by rewrite Hnone.
Qed.

(** X10. With filters that are functions, on a tag that reads as an
    array or as nothing (no filter registered yet), registering a filter
    [F] whose priority is not below any priority already on the tag makes
    [applyFilters] return [F] applied to what it returned before. *)
Theorem last_priority_filter_applies_last tag F p value options s f :
  pure_filters behaviour f →
  plain Filters tag s →
  Forall (fun h => priority h <= default 10 p) (entries Filters tag s) →
  ∃ r s1 s2,
    completion (applyFilters behaviour tag value options s) = Normal r s1
    ∧ completion (applyFilters behaviour tag value options
                    (state_after (addFilter (Value := Value) tag F p s) s))
      = Normal (f F r options) s2.
Proof.
  intros Hp Hplain Hall.
  change (addFilter tag F p s) with (register Filters tag F p s).
  rewrite (state_after_register _ _ _ _ _ Hplain).
  rewrite (applyFilters_plain _ _ _ _ _ Hplain).
  erewrite applyFilters_array by apply slot_put_eq.
  rewrite !(fold_filters_pure f) by done.
  rewrite (sort_by_append_last (entries Filters tag s) (entry F p)) by done.
  rewrite List.map_app, fold_left_app. simpl. eauto.
Qed.

(** X11. On a tag that reads as an array or as nothing (no action
    registered yet), an action registered with a priority below every
    priority already on the tag is the first one the next [doAction]
    calls. *)
Theorem lowest_priority_action_is_called_first tag cb p options s :
  plain Actions tag s →
  Forall (fun h => default 10 p < priority h) (entries Actions tag s) →
  ∃ rest,
    calls (doAction behaviour tag options
             (state_after (addAction (Value := Value) tag cb p s) s))
    = (cb, [options]) :: rest.
Proof.
  intros Hplain Hall.
  change (addAction tag cb p s) with (register Actions tag cb p s).
  rewrite (state_after_register _ _ _ _ _ Hplain).
  erewrite doAction_array by apply slot_put_eq.
  rewrite (sort_by_append_first (entries Actions tag s) (entry cb p)) by done.
  simpl. destruct (behaviour cb [options] _); simpl; eauto.
Qed.

(** X12. On a new registry, whatever surrounds it, a tag that names no
    inherited property has no entry: the queries say no, [doAction]
    calls nothing, [applyFilters] returns [value], a removal does
    nothing, and each leaves the registry new. *)
Theorem new_registry_is_empty (w : World) st tag cb value options :
  ordinary tag →
  let s := {| hooks := new_Hooks; world := w |} in
  has st tag s = done_ false s
  ∧ unregister st tag cb s = done_ tt s
  ∧ doAction behaviour tag options s = done_ tt s
  ∧ applyFilters behaviour tag value options s = done_ value s.
Proof.
  intros Ho s.
  assert (E : ∀ st', slot st' tag s = JsUndefined).
  { intros st'. unfold slot. rewrite Get_ordinary by done. by destruct st'. }
  split; [by rewrite has_spec, E|].
  split; [by apply unregister_undefined|].
  split; [by apply doAction_undefined | by apply applyFilters_undefined].
Qed.

End Further.

Section Further_dispatch.

Context {Value World : Type}.

Abbreviation State := (@State World).
Abbreviation register := (@register Value World).
Abbreviation unregister := (@unregister Value World).

Implicit Types s : State.

(** X13. A registration or a removal under one tag changes what is read
    under no other tag and nothing in the other table, in every state and
    whether it returns or throws. *)
Theorem other_places_are_untouched st tag cb p s st' tag' :
  (st', tag') ≠ (st, tag) →
  slot st' tag' (state_after (register st tag cb p s) s) = slot st' tag' s
  ∧ slot st' tag' (state_after (unregister st tag cb s) s) = slot st' tag' s.
Proof.
  intros Hne. split.
  - destruct (slot st tag s) as [|l|n|] eqn:E.
    + rewrite register_undefined, state_after_done, slot_put_cases by done.
      by rewrite decide_False.
    + rewrite (register_array _ _ _ _ _ _ E), state_after_done, slot_put_cases.
      by rewrite decide_False.
    + destruct (register_inherited (Value := Value) st tag cb p s) as (s1 & Hr & _ & Hs);
        [right; eauto|].
      fold register in Hr. rewrite Hr. apply Hs.
    + destruct (register_inherited (Value := Value) st tag cb p s) as (s1 & Hr & _ & Hs);
        [by left|].
      fold register in Hr. rewrite Hr. apply Hs.
  - rewrite state_after_unregister.
    destruct (slot st tag s) as [|l|n|]; try done.
    rewrite slot_put_cases. by rewrite decide_False.
Qed.

(** X14. [doAction] drops what the actions return: two families of
    callbacks that differ only in the values they return give the same
    run, call for call. *)
Theorem doAction_ignores_returned_values
    (b1 b2 : Callback -> list Value -> State -> @Completion Value World Value)
    tag options s :
  (∀ cb args s0, discard (b1 cb args s0) = discard (b2 cb args s0)) →
  doAction b1 tag options s = doAction b2 tag options s.
Proof.
  intros Hb.
  assert (Hrun : ∀ cbs s0, run_actions b1 options cbs s0 = run_actions b2 options cbs s0).
  { induction cbs as [|cb rest IH]; intros s0; [done|]. simpl.
    specialize (Hb cb [options] s0).
    destruct (b1 cb [options] s0) as [v1 s1|e1 s1|], (b2 cb [options] s0) as [v2 s2|e2 s2|];
      simpl in Hb; try discriminate Hb; try done.
    - injection Hb as <-. by rewrite IH.
    - by injection Hb as <- <-. }
  destruct (slot Actions tag s) as [|l|n|] eqn:E.
  - by rewrite !doAction_undefined.
  - by rewrite !(doAction_array _ _ _ _ _ E).
  - by rewrite !doAction_inherited by eauto.
  - by rewrite !doAction_inherited by eauto.
Qed.

End Further_dispatch.

(** ** Worked examples of the further properties *)

(** Registering [h = 3] under ['x'] after [f] and [g] and removing it
    again gives back the state. *)
Lemma add_then_remove_restores_witness :
  plain Actions "x" f_then_g
  ∧ ¬ In 3%nat (List.map callback (entries Actions "x" f_then_g))
  ∧ then_removeAction "x" 3%nat (then_addAction "x" 3%nat (Some 7) f_then_g) = f_then_g.
Proof.
  assert (Hp : plain Actions "x" f_then_g) by (right; eexists; reflexivity).
  assert (Hn : ¬ In 3%nat (List.map callback (entries Actions "x" f_then_g))).
  { simpl. intros [H|[H|[]]]; discriminate H. }
  split; [exact Hp|]. split; [exact Hn|].
  destruct (add_then_remove_restores (Value := Z) Actions "x" 3%nat (Some 7) f_then_g Hp Hn)
    as (_ & _ & _ & H).
  exact (H _ eq_refl).
Defined.

(** [f = 1] registered twice under ['x'] is called twice. *)
Lemma dispatch_calls_each_entry_once_witness :
  calls (doAction quiet "x" 0
           (then_addAction "x" 1%nat None (then_addAction "x" 1%nat (Some 5) fresh)))
  ≡ₚ [ (1%nat, [0]); (1%nat, [0]) ].
Proof.
  destruct (dispatch_calls_each_entry_once quiet "x" 0 0
              (then_addAction "x" 1%nat None (then_addAction "x" 1%nat (Some 5) fresh)))
    as [H _].
  exact (H [ {| priority := 5; callback := 1%nat |}; {| priority := 10; callback := 1%nat |} ]
           _ eq_refl eq_refl).
Defined.

(** [hasAction('x')] is [true] after two registrations, so [doAction('x')]
    calls something. *)
Lemma has_iff_dispatch_calls_witness :
  plain Actions "x" f_then_g
  ∧ completion (hasAction (Value := Z) "x" f_then_g) = Normal true f_then_g
  ∧ calls (doAction quiet "x" 0 f_then_g) ≠ [].
Proof.
  assert (Hp : plain Actions "x" f_then_g) by (right; eexists; reflexivity).
  split; [exact Hp|]. split; [reflexivity|].
  destruct (has_iff_dispatch_calls quiet "x" 0 0 f_then_g) as [H _].
  destruct (H Hp) as [H1 _]. apply H1. reflexivity.
Defined.

(** An action and a filter under the same tag, in either order. *)
Lemma registrations_commute_witness :
  then_addFilter "a" 2%nat (Some 3) (then_addAction "a" 1%nat None fresh)
  = then_addAction "a" 1%nat None (then_addFilter "a" 2%nat (Some 3) fresh).
Proof.
  apply (registrations_commute (Value := Z) Actions "a" 1%nat None Filters "a" 2%nat (Some 3)
           fresh).
  - discriminate.
  - left. reflexivity.
  - left. reflexivity.
Defined.

(** The second [doAction('x')] stores what the first stored. *)
Lemma second_dispatch_keeps_store_witness :
  let s1 := state_after (doAction quiet "x" 0 f_then_g) f_then_g in
  let s2 := state_after (doAction quiet "x" 0 s1) s1 in
  leaves_registry quiet ∧ hooks s2 = hooks s1.
Proof.
  intros s1 s2.
  assert (Hq : leaves_registry quiet) by (by intros cb args s s' [= <-]).
  split; [exact Hq|].
  destruct (second_dispatch_keeps_store quiet "x" 0 0 0 f_then_g s1 s2 Hq) as [H _].
  exact (H eq_refl eq_refl).
Defined.

(** [addAction('toString', f)] throws, and every tag reads as before. *)
Lemma failed_call_changes_nothing_witness :
  ∃ s',
    completion (addAction (Value := Z) "toString" 1%nat None fresh)
    = Throw (TypeError "push is not a function") s'
    ∧ ∀ st' tag', slot st' tag' s' = slot st' tag' fresh.
Proof.
  eexists. split; [reflexivity|].
  match goal with
  | |- ∀ st' tag', slot st' tag' ?s' = _ =>
      destruct (failed_call_changes_nothing (Value := Z) Actions "toString" 1%nat None fresh
                  (TypeError "push is not a function") s') as [H _]
  end.
  by destruct (H eq_refl) as (_ & _ & Hs).
Defined.

(** The functions behind [double_and_inc]. *)
Lemma double_and_inc_pure :
  pure_filters double_and_inc
    (fun cb value _ => match cb with 1%nat => value * 2 | 2%nat => value + 1 | _ => 0 end).
Proof. intros [|[|[|cb]]] value options s; reflexivity. Qed.

(** On a new registry [applyFilters('c', 3)] is 3, and after
    [addFilter('c', F1)] it is [F1(3)]: 6.  After [F2] at 10 and [F1] at
    5 it is 7; with [F2] registered once more at 20 it is [F2(7)]: 8. *)
Lemma last_priority_filter_applies_last_witness :
  plain Filters "c" fresh ∧ plain Filters "c" F2_then_F1
  ∧ (∃ s2,
       completion (applyFilters double_and_inc "c" 3 0 (then_addFilter "c" 1%nat None fresh))
       = Normal 6 s2)
  ∧ (∃ s2,
       completion (applyFilters double_and_inc "c" 3 0
                     (then_addFilter "c" 2%nat (Some 20) F2_then_F1))
       = Normal 8 s2).
Proof.
  assert (Hp0 : plain Filters "c" fresh) by (left; reflexivity).
  assert (Hp : plain Filters "c" F2_then_F1) by (right; eexists; reflexivity).
  split; [exact Hp0|]. split; [exact Hp|]. split.
  - destruct (last_priority_filter_applies_last double_and_inc "c" 1%nat None 3 0 fresh
                _ double_and_inc_pure Hp0) as (r & s1 & s2 & H1 & H2).
    { constructor. }
    vm_compute in H1. injection H1 as <- _.
    exists s2. exact H2.
  - destruct (last_priority_filter_applies_last double_and_inc "c" 2%nat (Some 20) 3 0
                F2_then_F1 _ double_and_inc_pure Hp) as (r & s1 & s2 & H1 & H2).
    { repeat constructor; simpl; lia. }
    vm_compute in H1. injection H1 as <- _.
    exists s2. exact H2.
Defined.

(** [h = 3] registered on a new registry is called first; registered at
    priority 1 after [f] at 20 and [g] at 5 it is called first too. *)
Lemma lowest_priority_action_is_called_first_witness :
  plain Actions "x" fresh ∧ plain Actions "x" f_then_g
  ∧ (∃ rest,
       calls (doAction quiet "x" 0 (then_addAction "x" 3%nat None fresh))
       = (3%nat, [0]) :: rest)
  ∧ (∃ rest,
       calls (doAction quiet "x" 0 (then_addAction "x" 3%nat (Some 1) f_then_g))
       = (3%nat, [0]) :: rest).
Proof.
  assert (Hp0 : plain Actions "x" fresh) by (left; reflexivity).
  assert (Hp : plain Actions "x" f_then_g) by (right; eexists; reflexivity).
  split; [exact Hp0|]. split; [exact Hp|]. split.
  - apply (lowest_priority_action_is_called_first quiet "x" 3%nat None 0 fresh Hp0).
    constructor.
  - apply (lowest_priority_action_is_called_first quiet "x" 3%nat (Some 1) 0 f_then_g Hp).
    repeat constructor; simpl; lia.
Defined.

(** ['init'] on a new registry. *)
Lemma new_registry_is_empty_witness :
  ordinary "init"
  ∧ hasAction (Value := Z) "init" fresh = done_ false fresh
  ∧ doAction quiet "init" 0 fresh = done_ tt fresh.
Proof.
  assert (Ho : ordinary "init") by reflexivity.
  split; [exact Ho|].
  destruct (new_registry_is_empty quiet tt Actions "init" 1%nat 0 0 Ho) as (H1 & _ & H2 & _).
  by split.
Defined.

(** [addAction('x', h)] after [f] and [g]: one entry more, at priority 10. *)
Lemma register_plain_witness :
  plain Actions "x" f_then_g
  ∧ addAction (Value := Z) "x" 3%nat None f_then_g
    = done_ tt
        (put Actions "x"
           (JsArray [ {| priority := 20; callback := 1%nat |};
                      {| priority := 5; callback := 2%nat |};
                      {| priority := 10; callback := 3%nat |} ]) f_then_g).
Proof.
  assert (Hp : plain Actions "x" f_then_g) by (right; eexists; reflexivity).
  split; [exact Hp|].
  by destruct (register_plain (Value := Z) Actions "x" 3%nat None f_then_g Hp) as [H _].
Defined.

(** [removeAction('x', f)] after [f], [g] and [f] again leaves [g]. *)
Lemma unregister_plain_witness :
  let s := then_addAction "x" 1%nat (Some 1) f_then_g in
  plain Actions "x" s
  ∧ ∃ s', removeAction (Value := Z) "x" 1%nat s = done_ tt s'
          ∧ entries Actions "x" s' = [ {| priority := 5; callback := 2%nat |} ].
Proof.
  intros s.
  assert (Hp : plain Actions "x" s) by (right; eexists; reflexivity).
  split; [exact Hp|].
  destruct (unregister_plain (Value := Z) Actions "x" 1%nat s Hp) as (s' & H1 & H2 & _).
  exists s'. by split.
Defined.

(** [hasFilter('c')] with two filters, and with none. *)
Lemma has_plain_witness :
  plain Filters "c" F2_then_F1 ∧ plain Filters "c" fresh
  ∧ hasFilter (Value := Z) "c" F2_then_F1 = done_ true F2_then_F1
  ∧ hasFilter (Value := Z) "c" fresh = done_ false fresh.
Proof.
  assert (Hp : plain Filters "c" F2_then_F1) by (right; eexists; reflexivity).
  assert (Hp0 : plain Filters "c" (fresh)) by (left; reflexivity).
  split; [exact Hp|]. split; [exact Hp0|]. split.
  - exact (has_plain (Value := Z) Filters "c" F2_then_F1 Hp).
  - exact (has_plain (Value := Z) Filters "c" fresh Hp0).
Defined.

(** After the only action of ['x'] is removed, the tag holds an empty
    array: [doAction('x')] does nothing. *)
Lemma empty_plain_witness :
  let s := then_removeAction "x" 1%nat only_f in
  plain Actions "x" s ∧ slot Actions "x" s = JsArray []
  ∧ doAction f_registers_g "x" 0 s = done_ tt s.
Proof.
  intros s.
  assert (Hp : plain Actions "x" s) by (right; eexists; reflexivity).
  split; [exact Hp|]. split; [reflexivity|].
  destruct (empty_plain f_registers_g "x" 0 0 s) as [H _].
  by destruct (H Hp eq_refl) as [H1 _].
Defined.

(** After the program of the example for registration order, ['x'] and
    ['y'] are plain in both tables. *)
Lemma reachable_plain_witness :
  ∃ s,
    final (completion (exec (behaviourN f_adds_h 2) register_and_dispatch (initial tt))) = Some s
    ∧ ordinary "y" ∧ plain Filters "y" s ∧ plain Actions "x" s.
Proof.
  eexists. split; [vm_compute; reflexivity|].
  assert (Hy : ordinary "y") by reflexivity.
  assert (Hx : ordinary "x") by reflexivity.
  split; [exact Hy|]. split.
  - exact (reachable_plain f_adds_h 2 register_and_dispatch tt _ Filters "y" eq_refl Hy).
  - exact (reachable_plain f_adds_h 2 register_and_dispatch tt _ Actions "x" eq_refl Hx).
Defined.

(** ['valueOf'] on a new registry. *)
Lemma inherited_tag_throws_witness :
  ¬ ordinary "valueOf"
  ∧ removeFilter (Value := Z) "valueOf" 1%nat fresh = failed "filter is not a function" fresh
  ∧ applyFilters quiet "valueOf" 5 0 fresh = failed "sort is not a function" fresh.
Proof.
  assert (Ho : ¬ ordinary "valueOf") by (intros H; discriminate H).
  split; [exact Ho|].
  destruct (inherited_tag_throws quiet Filters "valueOf" fresh 1%nat None 5 0 Ho eq_refl)
    as (_ & H1 & _ & H2).
  split; [exact H1 | exact (H2 eq_refl)].
Defined.

(** A registration under ['x'] leaves the filters of ['x'] unread. *)
Lemma other_places_are_untouched_witness :
  slot Filters "x" (then_addAction "x" 3%nat None f_then_g) = slot Filters "x" f_then_g.
Proof.
  by destruct (other_places_are_untouched (Value := Z) Actions "x" 3%nat None f_then_g
                 Filters "x") as [H _].
Defined.

(** Actions that return [0] and actions that return [1] run alike. *)
Lemma doAction_ignores_returned_values_witness :
  doAction quiet "x" 0 f_then_g = doAction (fun _ _ s => Normal 1 s) "x" 0 f_then_g.
Proof. by apply doAction_ignores_returned_values. Defined.
